(** * Bookshelf catalog ([catalog.py]): books, shelves, a room and the catalog

    A shallow embedding of [catalog.py] and the properties of its three
    catalog operations:
    - [organize_books_by_category] (group by category, order the categories,
      clear the shelves, place round-robin),
    - [sort_books_on_all_shelves] (stable sort of every shelf by title),
    - [verify_constraint_same_category_same_shelf] (one category, one shelf).

    Modelling choices.
    - A Python [str] is a [string]; [<] on [str] is the lexicographic order on
      character codes, [String.ltb].
    - The builtins [str.lower], [str.casefold] and the iteration order of a
      [set] are not defined by the program; they are the fields of the class
      [Runtime].  Every general theorem holds for every runtime; the worked
      examples use [ascii_runtime], which is what CPython computes on ASCII
      text.
    - [sorted] and [list.sort] are stable sorts driven by [<] on the keys;
      they are modelled by the stable insertion sort [sorted], and
      [sorted_unique] shows that every stable sort computes the same list.
    - The [dict] [by_cat] is an association list in insertion order (the
      order of the keys feeds the stable sort); the [dict] [seen] is a [gmap].
    - Exceptions are the left summand of [result]; the subscripts
      [shelves[i % n]] and [by_cat[cat]] raise as in Python, and
      [place_eq] shows that they never do.
    - A room is a value: a list of shelves, each with a list of books of its
      own (as [field(default_factory=list)] builds them), none shared with
      another shelf or with the pile; the pile is the finite sequence of books
      that [for b in pile] goes through.  The mutating methods are functions
      from the state before to the state after.

    The last part of the file covers the rest of the classes:
    [Room.add_shelf], the text of [Shelf.__str__] and [Catalog.dump], and the
    rows that [Catalog.to_dataframe] hands to [pandas.DataFrame] (the data
    frame itself and the pivot of [demo()] belong to pandas). *)

From Stdlib Require Import Ascii String.
From stdpp Require Import base list gmap strings sorting pretty.

#[local] Set Warnings "-clear-no-such-hyp".



(** * The program *)

(** ** Exceptions *)

Inductive exn : Type :=
  | ValueError (msg : string)
  | AssertionError (msg : string)
  | KeyError (key : string)
  | IndexError.

Definition result (A : Type) : Type := exn + A.

Definition ok {A} (x : A) : result A := inr x.
Definition raise {A} (e : exn) : result A := inl e.

Definition bind {A B} (m : result A) (k : A → result B) : result B :=
  match m with
  | inl e => inl e
  | inr x => k x
  end.

Notation "x ←! m ; k" := (bind m (λ x, k))
  (at level 100, m at next level, right associativity,
   format "x  ←!  m ;  '/' k").

(** ** Data model *)

Record Book : Type := mkBook {
  id : string;
  title : string;
  author : string;
  category : string;
  isbn : option string
}.

Record Shelf : Type := mkShelf {
  name : string;
  books : list Book
}.

Record Room : Type := mkRoom {
  owner : string;
  shelves : list Shelf
}.

(** The parts of the Python runtime the program relies on. *)
Class Runtime : Type := {
  (** [str.lower] *)
  lower : string → string;
  (** [str.casefold] *)
  casefold : string → string;
  (** the order in which a [set] built from the given sequence of
      insertions is iterated *)
  set_iter : list string → list string;
  set_iter_NoDup : ∀ l, NoDup (set_iter l);
  set_iter_elem : ∀ l x, x ∈ set_iter l ↔ x ∈ l
}.

(** ** Stable sorting by a key: [sorted(xs, key=f)] and [xs.sort(key=f)] *)

Section sorting.
Context {A : Type} (key : A → string).

(** [x] stood before every element of [l]: it goes in front of the first
    element whose key is not smaller than its own. *)
Fixpoint insert_sorted (x : A) (l : list A) : list A :=
  match l with
  | [] => [x]
  | y :: l' =>
      if String.ltb (key y) (key x) then y :: insert_sorted x l'
      else x :: y :: l'
  end.

Fixpoint sorted (l : list A) : list A :=
  match l with
  | [] => []
  | x :: l' => insert_sorted x (sorted l')
  end.

(** non-descending keys *)
Definition key_le (x y : A) : Prop := String.ltb (key y) (key x) = false.
End sorting.

(** ** Shelf *)

Definition add_books (sh : Shelf) (bs : list Book) : Shelf :=
  {| name := name sh; books := books sh ++ bs |}.

Definition clear (sh : Shelf) : Shelf :=
  {| name := name sh; books := [] |}.

Definition title_key `{Runtime} (b : Book) : string := casefold (title b).

Definition sort_books_by_title `{Runtime} (sh : Shelf) : Shelf :=
  {| name := name sh; books := sorted title_key (books sh) |}.

Definition categories (sh : Shelf) : gset string :=
  list_to_set (category <$> books sh).

(** ** Catalog

    A catalog holds its room and nothing else: its methods are functions of
    the room. *)

(** *** The dictionary [by_cat] *)

Definition dict : Type := list (string * list Book).

Definition dict_keys (d : dict) : list string := d.*1.

Fixpoint dict_get (d : dict) (k : string) : option (list Book) :=
  match d with
  | [] => None
  | (k', bs) :: d' => if decide (k' = k) then Some bs else dict_get d' k
  end.

(** [d.setdefault(k, []).append(b)] *)
Fixpoint setdefault_append (d : dict) (k : string) (b : Book) : dict :=
  match d with
  | [] => [(k, [b])]
  | (k', bs) :: d' =>
      if decide (k' = k) then (k', bs ++ [b]) :: d'
      else (k', bs) :: setdefault_append d' k b
  end.

Definition group_step (d : dict) (b : Book) : dict :=
  setdefault_append d (category b) b.

Definition group_by_category (pile : list Book) : dict :=
  fold_left group_step pile [].

(** *** [organize_books_by_category] *)

(** [shelves[i]], raising [IndexError] out of range *)
Definition shelf_at (shs : list Shelf) (i : nat) : result Shelf :=
  match shs !! i with
  | Some sh => ok sh
  | None => raise IndexError
  end.

(** [by_cat[cat]], raising [KeyError] on a missing key *)
Definition dict_at (d : dict) (k : string) : result (list Book) :=
  match dict_get d k with
  | Some bs => ok bs
  | None => raise (KeyError k)
  end.

(** The loop [for i, cat in enumerate(categories)], from counter [i] on. *)
Fixpoint place (by_cat : dict) (n i : nat) (cats : list string)
    (shs : list Shelf) : result (list Shelf) :=
  match cats with
  | [] => ok shs
  | cat :: cats' =>
      shelf ←! shelf_at shs (i mod n);
      bs ←! dict_at by_cat cat;
      place by_cat n (S i) cats' (<[i mod n := add_books shelf bs]> shs)
  end.

Definition category_order `{Runtime} (pile : list Book) : list string :=
  sorted lower (dict_keys (group_by_category pile)).

Definition organize_books_by_category `{Runtime}
    (room : Room) (pile : list Book) : result Room :=
  if decide (shelves room = []) then raise (ValueError "No shelves in the room.")
  else
    let by_cat := group_by_category pile in
    let categories := sorted lower (dict_keys by_cat) in
    let cleared := clear <$> shelves room in
    let n := length (shelves room) in
    shs ←! place by_cat n 0 categories cleared;
    ok {| owner := owner room; shelves := shs |}.

(** *** [sort_books_on_all_shelves] *)

Definition sort_books_on_all_shelves `{Runtime} (room : Room) : Room :=
  {| owner := owner room; shelves := sort_books_by_title <$> shelves room |}.

(** *** [verify_constraint_same_category_same_shelf] *)

Definition found_on (cat first second : string) : string :=
  "Category '" +:+ cat +:+ "' was found on shelves '" +:+ first
    +:+ "' and '" +:+ second +:+ "'".

(** The inner loop, over the categories of one shelf. *)
Fixpoint verify_shelf (shelf_name : string) (cats : list string)
    (seen : gmap string string) : result (gmap string string) :=
  match cats with
  | [] => ok seen
  | cat :: cats' =>
      match seen !! cat with
      | Some first =>
          if decide (first ≠ shelf_name)
          then raise (AssertionError (found_on cat first shelf_name))
          else verify_shelf shelf_name cats' (<[cat := shelf_name]> seen)
      | None => verify_shelf shelf_name cats' (<[cat := shelf_name]> seen)
      end
  end.

(** The outer loop, over the shelves. *)
Fixpoint verify_shelves `{Runtime} (shs : list Shelf)
    (seen : gmap string string) : result unit :=
  match shs with
  | [] => ok tt
  | sh :: shs' =>
      seen' ←! verify_shelf (name sh) (set_iter (category <$> books sh)) seen;
      verify_shelves shs' seen'
  end.

Definition verify_constraint_same_category_same_shelf `{Runtime}
    (room : Room) : result unit :=
  verify_shelves (shelves room) ∅.

(** ** The rest of the classes *)

(** *** [Room.add_shelf] *)

Definition add_shelf (room : Room) (shelf : Shelf) : Room :=
  {| owner := owner room; shelves := shelves room ++ [shelf] |}.

(** *** [Shelf.__str__] and [Catalog.dump]

    Text that is not ASCII is held as its UTF-8 bytes (whose lexicographic
    order is the order of the code points); the one such character of the
    program is the dash of the format string below. *)

Definition newline : string := String "010"%char EmptyString.

(** [sep.join(l)] *)
Fixpoint str_join (sep : string) (l : list string) : string :=
  match l with
  | [] => ""
  | x :: l' =>
      match l' with
      | [] => x
      | _ :: _ => x +:+ sep +:+ str_join sep l'
      end
  end.

(** [sorted(self.categories())]: no key, the strings themselves are
    compared. *)
Definition sorted_categories `{Runtime} (sh : Shelf) : list string :=
  sorted (λ c, c) (set_iter (category <$> books sh)).

(** [", ".join(sorted(self.categories())) or "-"]: the dash stands in when
    the joined text is empty. *)
Definition cats `{Runtime} (sh : Shelf) : string :=
  let joined := str_join ", " (sorted_categories sh) in
  if decide (joined = "") then "-" else joined.

Definition book_line (b : Book) : string :=
  "  - " +:+ title b +:+ " — " +:+ author b +:+ " [" +:+ category b
    +:+ "] (id=" +:+ id b +:+ ")".

Definition shelf_str `{Runtime} (sh : Shelf) : string :=
  let lines :=
    ("Shelf '" +:+ name sh +:+ "' (" +:+ pretty (length (books sh))
       +:+ " books; categories: " +:+ cats sh +:+ ")")
    :: (book_line <$> books sh) in
  str_join newline lines.

Definition dump `{Runtime} (room : Room) : string :=
  str_join (newline +:+ newline) (shelf_str <$> shelves room).

(** *** [Catalog.to_dataframe]

    The list [rows] that the method builds and hands to [pandas.DataFrame]:
    one row per book, in the order of the shelves and of their books, the
    keys of the Python dictionary as the fields of [Row]. *)

Record Row : Type := mkRow {
  row_id : string;
  row_title : string;
  row_author : string;
  row_category : string;
  row_isbn : option string;
  shelf_name : string
}.

Definition shelf_rows (shelf : Shelf) : list Row :=
  (λ b, {| row_id := id b; row_title := title b; row_author := author b;
           row_category := category b; row_isbn := isbn b;
           shelf_name := name shelf |}) <$> books shelf.

Definition to_dataframe (room : Room) : list Row :=
  mjoin (shelf_rows <$> shelves room).

(** * Vocabulary of the properties *)

(** ** The runtime on ASCII text *)

Definition ascii_lower (c : ascii) : ascii :=
  let n := nat_of_ascii c in
  if (65 <=? n)%nat && (n <=? 90)%nat then ascii_of_nat (n + 32) else c.

Fixpoint string_lower (s : string) : string :=
  match s with
  | EmptyString => EmptyString
  | String c s' => String (ascii_lower c) (string_lower s')
  end.

(** Distinct elements in the order of their first occurrence. *)
Fixpoint first_seen (l : list string) : list string :=
  match l with
  | [] => []
  | x :: l' => x :: filter (λ y, y ≠ x) (first_seen l')
  end.

(** Lower-casing and case-folding of ASCII letters; a set iterated in the
    order of insertion. *)
#[export] Instance ascii_runtime : Runtime.
Proof.
  refine {| lower := string_lower;
            casefold := string_lower;
            set_iter := first_seen |}.
  - intros l. induction l as [|x l IH]; simpl; [constructor|].
    constructor; [|by apply NoDup_filter].
    rewrite list_elem_of_filter. by intros [? _].
  - intros l x. induction l as [|y l IH]; simpl; [done|].
    rewrite !elem_of_cons, list_elem_of_filter, IH.
    destruct (decide (x = y)); tauto.
Defined.

(** ** The room and the pile of [demo()] *)

Definition demo_room : Room :=
  {| owner := "Bob";
     shelves := [mkShelf "Left" []; mkShelf "Right" []; mkShelf "Top" []] |}.

Definition demo_pile : list Book := [
  mkBook "b001" "A Tale of Two Cities" "Charles Dickens" "Classic" None;
  mkBook "b002" "Brave New World" "Aldous Huxley" "Dystopian" None;
  mkBook "b003" "The Pragmatic Programmer" "Andrew Hunt" "Programming" None;
  mkBook "b004" "Clean Code" "Robert C. Martin" "Programming" None;
  mkBook "b005" "Do Androids Dream of Electric Sheep?" "Philip K. Dick"
    "Sci-Fi" None;
  mkBook "b006" "I, Robot" "Isaac Asimov" "Sci-Fi" None;
  mkBook "b007" "The Name of the Rose" "Umberto Eco" "Mystery" None ].

(** ** Groups, slots and conflicts *)

(** The books of one category, in pile order. *)
Definition group_of (c : string) (pile : list Book) : list Book :=
  filter (λ b, category b = c) pile.

(** The categories that the loop of [place], counting from [i], hands to the
    shelf at index [j]. *)
Fixpoint slot_categories (n i : nat) (cats : list string) (j : nat)
    : list string :=
  match cats with
  | [] => []
  | c :: cats' =>
      if decide (i mod n = j) then c :: slot_categories n (S i) cats' j
      else slot_categories n (S i) cats' j
  end.

(** What [by_cat[c]] holds, and nothing for a missing key. *)
Definition dict_books (d : dict) (c : string) : list Book :=
  default [] (dict_get d c).

(** The books the loop of [place] adds to the shelf at index [j]. *)
Definition share (d : dict) (n i : nat) (cats : list string) (j : nat)
    : list Book :=
  mjoin (dict_books d <$> slot_categories n i cats j).

(** The shelves after a placement run: every shelf keeps its name and holds
    the groups of its slot, one after the other. *)
Definition organized `{Runtime} (shs : list Shelf) (pile : list Book)
    : list Shelf :=
  imap (λ j sh,
    {| name := name sh;
       books := mjoin ((λ c, group_of c pile)
                  <$> slot_categories (length shs) 0 (category_order pile) j) |})
    shs.

(** Two shelves, the second later in the room, hold the same category under
    different names. *)
Definition conflict (shs : list Shelf) (c first second : string) : Prop :=
  ∃ i j si sj,
    i < j ∧ shs !! i = Some si ∧ shs !! j = Some sj
    ∧ c ∈ categories si ∧ c ∈ categories sj
    ∧ name si = first ∧ name sj = second ∧ first ≠ second.

(** The tie-break in the words of the specification ("ties broken by
    original byte-order"): of two categories with the same lower-cased form,
    the one that is smaller in byte order is visited first. *)
Definition ties_in_byte_order `{Runtime} (cats : list string) : Prop :=
  ∀ i j ci cj,
    i < j → cats !! i = Some ci → cats !! j = Some cj →
    lower ci = lower cj → String.ltb cj ci = false.

(** ** Text without the quote of the message *)

(** No character of the string is the apostrophe that the message of the
    verifier puts around a category and around a shelf name. *)
Fixpoint quote_free (s : string) : Prop :=
  match s with
  | EmptyString => True
  | String a s' => a ≠ "'"%char ∧ quote_free s'
  end.

(** ** Rows read back *)

(** The book that a row was made from. *)
Definition book_of_row (r : Row) : Book :=
  {| id := row_id r; title := row_title r; author := row_author r;
     category := row_category r; isbn := row_isbn r |}.

(** * Properties *)

(** ** The order on strings *)

Section string_order.
Implicit Types s t u : string.

Lemma ascii_compare_Lt_trans (a b c : ascii) :
  Ascii.compare a b = Lt → Ascii.compare b c = Lt → Ascii.compare a c = Lt.
Proof.
  unfold Ascii.compare. rewrite !N.compare_lt_iff. lia.
Qed.

Lemma ascii_compare_refl (a : ascii) : Ascii.compare a a = Eq.
Proof. unfold Ascii.compare. apply N.compare_refl. Qed.

Lemma string_compare_refl s : String.compare s s = Eq.
Proof.
  induction s as [|a s IH]; simpl; [done|].
  by rewrite ascii_compare_refl.
Qed.

Lemma string_compare_Lt_trans s t u :
  String.compare s t = Lt → String.compare t u = Lt → String.compare s u = Lt.
Proof.
  revert t u.
  induction s as [|a s IH]; intros [|b t] [|c u]; simpl; try done.
  destruct (Ascii.compare a b) eqn:Hab; [|clear IH|done].
  - apply Ascii.compare_eq_iff in Hab as ->.
    destruct (Ascii.compare b c); [apply IH|done|done].
  - destruct (Ascii.compare b c) eqn:Hbc; [| |done].
    + apply Ascii.compare_eq_iff in Hbc as <-. by rewrite Hab.
    + by rewrite (ascii_compare_Lt_trans a b c).
Qed.

Lemma string_ltb_irrefl s : String.ltb s s = false.
Proof. unfold String.ltb. by rewrite string_compare_refl. Qed.

Lemma string_ltb_asym s t : String.ltb s t = true → String.ltb t s = false.
Proof.
  unfold String.ltb. rewrite (String.compare_antisym s t).
  by destruct (String.compare t s).
Qed.

Lemma string_ltb_trans s t u :
  String.ltb s t = true → String.ltb t u = true → String.ltb s u = true.
Proof.
  unfold String.ltb. intros Hst Htu.
  destruct (String.compare s t) eqn:Hc1; try done.
  destruct (String.compare t u) eqn:Hc2; try done.
  by rewrite (string_compare_Lt_trans s t u).
Qed.

(** Neither below the other: the same string. *)
Lemma string_ltb_antisym s t :
  String.ltb s t = false → String.ltb t s = false → s = t.
Proof.
  unfold String.ltb. rewrite (String.compare_antisym s t).
  destruct (String.compare t s) eqn:Hc; simpl; try done.
  intros _ _. symmetry. by apply String.compare_eq_iff.
Qed.

(** [¬ (u < s)] follows from [¬ (t < s)] and [¬ (u < t)]. *)
Lemma string_nlt_trans s t u :
  String.ltb t s = false → String.ltb u t = false → String.ltb u s = false.
Proof.
  intros Hts Hut.
  destruct (String.ltb u s) eqn:Hus; [|done].
  destruct (String.ltb s t) eqn:Hst.
  - by rewrite (string_ltb_trans u s t) in Hut.
  - rewrite (string_ltb_antisym s t) in Hus by done. congruence.
Qed.
End string_order.

(** ** The stable sort *)

Section sorted_properties.
Context {A : Type} (key : A → string).
Implicit Types (x y : A) (l : list A) (k : string).

Local Abbreviation le := (key_le key).
Local Abbreviation with_key k := (λ x, key x = k).

Lemma key_le_refl x : le x x.
Proof. apply string_ltb_irrefl. Qed.

Lemma key_le_trans x y z : le x y → le y z → le x z.
Proof. unfold key_le. intros Hxy Hyz. by eapply string_nlt_trans. Qed.

Lemma key_le_total x y : le x y ∨ le y x.
Proof.
  unfold key_le. destruct (String.ltb (key y) (key x)) eqn:Hlt; [|by left].
  right. by apply string_ltb_asym.
Qed.

Lemma key_le_antisym x y : le x y → le y x → key x = key y.
Proof. unfold key_le. intros Hxy Hyx. by apply string_ltb_antisym. Qed.

Lemma insert_sorted_perm x l : insert_sorted key x l ≡ₚ x :: l.
Proof.
  induction l as [|y l IH]; simpl; [done|].
  destruct (String.ltb (key y) (key x)); [|done].
  rewrite IH. apply Permutation_swap.
Qed.

Lemma sorted_perm l : sorted key l ≡ₚ l.
Proof.
  induction l as [|x l IH]; simpl; [done|].
  by rewrite insert_sorted_perm, IH.
Qed.

Lemma sorted_length l : length (sorted key l) = length l.
Proof. by rewrite sorted_perm. Qed.

Lemma sorted_elem x l : x ∈ sorted key l ↔ x ∈ l.
Proof. by rewrite sorted_perm. Qed.

Lemma sorted_NoDup l : NoDup l → NoDup (sorted key l).
Proof. by rewrite sorted_perm. Qed.

Lemma insert_sorted_ordered x l :
  StronglySorted le l → StronglySorted le (insert_sorted key x l).
Proof.
  induction 1 as [|y l Hl IH Hy]; simpl.
  { repeat constructor. }
  destruct (String.ltb (key y) (key x)) eqn:Hlt.
  - constructor; [done|].
    rewrite insert_sorted_perm. constructor; [|done].
    by apply string_ltb_asym.
  - constructor; [by constructor|].
    constructor; [done|].
    eapply Forall_impl; [done|]. intros z Hz. by eapply key_le_trans.
Qed.

Lemma sorted_ordered l : StronglySorted le (sorted key l).
Proof.
  induction l as [|x l IH]; simpl; [constructor|].
  by apply insert_sorted_ordered.
Qed.

Lemma insert_sorted_filter k x l :
  filter (with_key k) (insert_sorted key x l)
  = filter (with_key k) (x :: l).
Proof.
  induction l as [|y l IH]; simpl; [done|].
  destruct (String.ltb (key y) (key x)) eqn:Hlt; [|done].
  rewrite filter_cons, IH, !filter_cons.
  destruct (decide (key y = k)) as [Hy|]; [|done].
  destruct (decide (key x = k)) as [Hx|]; [|done].
  rewrite Hy, Hx, string_ltb_irrefl in Hlt. done.
Qed.

(** Stability: the elements of any one key keep their relative order. *)
Lemma sorted_stable k l :
  filter (with_key k) (sorted key l) = filter (with_key k) l.
Proof.
  induction l as [|x l IH]; simpl; [done|].
  by rewrite insert_sorted_filter, !filter_cons, IH.
Qed.

(** Two ordered lists that agree key by key are the same list. *)
Lemma ordered_stable_eq l1 l2 :
  StronglySorted le l1 → StronglySorted le l2 →
  (∀ k, filter (with_key k) l1 = filter (with_key k) l2) →
  l1 = l2.
Proof.
  intros Hl1. revert l2.
  induction Hl1 as [|x l1 Hl1 IH Hx]; intros l2 Hl2 Hf.
  { destruct l2 as [|y l2]; [done|].
    specialize (Hf (key y)). rewrite filter_cons_True in Hf by done. done. }
  destruct Hl2 as [|y l2 Hl2 Hy].
  { specialize (Hf (key x)). rewrite filter_cons_True in Hf by done. done. }
  assert (key x = key y) as Hxy.
  { destruct (decide (key x = key y)) as [|Hne]; [done|].
    apply key_le_antisym.
    - assert (y ∈ x :: l1) as Hin.
      { eapply (list_elem_of_filter (with_key (key y))).
        rewrite Hf, filter_cons_True by done. left. }
      apply elem_of_cons in Hin as [->|Hin]; [done|].
      by eapply Forall_forall in Hx.
    - assert (x ∈ y :: l2) as Hin.
      { eapply (list_elem_of_filter (with_key (key x))).
        rewrite <-Hf, filter_cons_True by done. left. }
      apply elem_of_cons in Hin as [->|Hin]; [done|].
      by eapply Forall_forall in Hy. }
  pose proof (Hf (key x)) as Hfx.
  rewrite !filter_cons_True in Hfx by done.
  injection Hfx as <- Hfx. f_equal. apply IH; [done|].
  intros k. specialize (Hf k). rewrite !filter_cons in Hf.
  destruct (decide (key x = k)); [by injection Hf|done].
Qed.

(** Whatever stable sort the interpreter runs, its result is [sorted]. *)
Lemma sorted_unique l l' :
  StronglySorted le l' →
  (∀ k, filter (with_key k) l' = filter (with_key k) l) →
  l' = sorted key l.
Proof.
  intros Hl' Hf. apply ordered_stable_eq; [done|apply sorted_ordered|].
  intros k. by rewrite sorted_stable.
Qed.

Lemma sorted_fixed l : StronglySorted le l → sorted key l = l.
Proof. intros Hl. symmetry. by apply sorted_unique. Qed.

Lemma sorted_idemp l : sorted key (sorted key l) = sorted key l.
Proof. apply sorted_fixed, sorted_ordered. Qed.
End sorted_properties.

Section order_facts.
Context {A : Type} (key : A → string).

(** Among elements of distinct keys, one key picks at most one. *)
Lemma filter_key_short (k : string) (l : list A) :
  NoDup (key <$> l) → length (filter (λ x, key x = k) l) ≤ 1.
Proof.
  induction l as [|x l IH]; [simpl; lia|].
  rewrite fmap_cons, NoDup_cons. intros [Hx Hnd].
  rewrite filter_cons. destruct (decide (key x = k)) as [Hk|]; [|by apply IH].
  assert (filter (λ y, key y = k) l = []) as ->; [|simpl; lia].
  destruct (filter (λ y, key y = k) l) as [|y ys] eqn:Hf; [done|].
  exfalso. apply Hx. assert (y ∈ filter (λ y, key y = k) l) as Hy.
  { rewrite Hf. left. }
  apply list_elem_of_filter in Hy as [Hyk Hy].
  apply list_elem_of_fmap. exists y. split; [congruence|done].
Qed.

(** With distinct keys, the sorted list does not depend on the order the
    elements come in. *)
Lemma sorted_perm_unique (l1 l2 : list A) :
  l1 ≡ₚ l2 → NoDup (key <$> l2) → sorted key l1 = sorted key l2.
Proof.
  intros Hperm Hnd.
  apply (ordered_stable_eq key); [apply sorted_ordered..|].
  intros k. rewrite !sorted_stable.
  pose proof (filter_key_short k l2 Hnd) as Hshort.
  assert (filter (λ x, key x = k) l1 ≡ₚ filter (λ x, key x = k) l2) as Hf
    by by rewrite Hperm.
  destruct (filter (λ x, key x = k) l2) as [|y [|z ys]]; simpl in Hshort.
  - by apply Permutation_nil_r.
  - by apply Permutation_singleton_r.
  - lia.
Qed.
End order_facts.

(** ** First occurrences *)

Lemma first_seen_NoDup (l : list string) : NoDup (first_seen l).
Proof. apply (set_iter_NoDup (Runtime := ascii_runtime)). Qed.

Lemma first_seen_elem (l : list string) (x : string) :
  x ∈ first_seen l ↔ x ∈ l.
Proof. apply (set_iter_elem (Runtime := ascii_runtime)). Qed.

(** ** Grouping the pile by category *)

Section grouping.
Implicit Types (d : dict) (k c : string) (b : Book) (pile : list Book).

Lemma dict_keys_setdefault_append d k b :
  dict_keys (setdefault_append d k b)
  = if decide (k ∈ dict_keys d) then dict_keys d else dict_keys d ++ [k].
Proof.
  unfold dict_keys.
  induction d as [|[k' bs] d IH]; [done|].
  cbn [setdefault_append]. rewrite (fmap_cons fst _ d).
  destruct (decide (k' = k)) as [->|Hne]; rewrite fmap_cons.
  - by rewrite decide_True by set_solver.
  - rewrite IH. cbn [fst]. destruct (decide (k ∈ d.*1)).
    + by rewrite decide_True by set_solver.
    + by rewrite decide_False by set_solver.
Qed.

Lemma dict_get_setdefault_append d k b k' :
  dict_get (setdefault_append d k b) k'
  = if decide (k = k') then Some (default [] (dict_get d k) ++ [b])
    else dict_get d k'.
Proof.
  induction d as [|[k0 bs] d IH]; simpl.
  { destruct (decide (k = k')); done. }
  destruct (decide (k0 = k)) as [->|Hne]; simpl.
  - destruct (decide (k = k')); done.
  - destruct (decide (k0 = k')) as [->|Hne'].
    + by rewrite decide_False by done.
    + done.
Qed.

Lemma dict_get_is_Some d k : is_Some (dict_get d k) ↔ k ∈ dict_keys d.
Proof.
  unfold dict_keys.
  induction d as [|[k' bs] d IH]; simpl.
  { split; [by intros [? ?]|by intros ?%elem_of_nil]. }
  rewrite elem_of_cons. destruct (decide (k' = k)) as [->|Hne].
  - split; [by left|by eexists].
  - rewrite IH. naive_solver.
Qed.

Lemma group_by_category_snoc pile b :
  group_by_category (pile ++ [b]) = group_step (group_by_category pile) b.
Proof. unfold group_by_category. by rewrite fold_left_app. Qed.

Lemma first_seen_snoc (l : list string) (x : string) :
  first_seen (l ++ [x])
  = if decide (x ∈ l) then first_seen l else first_seen l ++ [x].
Proof.
  induction l as [|y l IH]; simpl; [done|].
  rewrite IH. destruct (decide (x = y)) as [->|Hne].
  - rewrite (decide_True (P := y ∈ y :: l)) by (apply elem_of_cons; by left).
    destruct (decide (y ∈ l)); [done|].
    rewrite filter_app, filter_cons_False, filter_nil, app_nil_r; [done|].
    intros Hy. by apply Hy.
  - destruct (decide (x ∈ l)) as [Hx|Hx].
    + by rewrite decide_True by (apply elem_of_cons; by right).
    + rewrite decide_False by (rewrite elem_of_cons; tauto).
      by rewrite filter_app, filter_cons_True by done.
Qed.

(** The keys of [by_cat]: the categories in the order they are first met. *)
Lemma dict_keys_group_by_category pile :
  dict_keys (group_by_category pile) = first_seen (category <$> pile).
Proof.
  induction pile as [|b pile IH] using rev_ind; [done|].
  rewrite group_by_category_snoc, fmap_app.
  change (category <$> [b]) with [category b]. rewrite first_seen_snoc.
  unfold group_step. rewrite dict_keys_setdefault_append, IH.
  destruct (decide (category b ∈ category <$> pile)).
  - by rewrite decide_True by by apply first_seen_elem.
  - by rewrite decide_False by by rewrite first_seen_elem.
Qed.

Lemma dict_keys_group_NoDup pile : NoDup (dict_keys (group_by_category pile)).
Proof. rewrite dict_keys_group_by_category. apply first_seen_NoDup. Qed.

Lemma dict_keys_group_elem pile c :
  c ∈ dict_keys (group_by_category pile) ↔ ∃ b, b ∈ pile ∧ category b = c.
Proof.
  rewrite dict_keys_group_by_category, first_seen_elem, list_elem_of_fmap.
  naive_solver.
Qed.

Lemma group_of_nil c pile : c ∉ category <$> pile → group_of c pile = [].
Proof.
  unfold group_of. induction pile as [|b pile IH]; [done|].
  rewrite fmap_cons, not_elem_of_cons. intros [Hne Hnin].
  rewrite filter_cons_False by done. by apply IH.
Qed.

(** The value of [by_cat] at a key: its books, in pile order. *)
Lemma dict_get_group_by_category pile c :
  dict_get (group_by_category pile) c
  = if decide (c ∈ category <$> pile) then Some (group_of c pile) else None.
Proof.
  induction pile as [|b pile IH] using rev_ind; [done|].
  rewrite group_by_category_snoc. unfold group_step, group_of in *.
  rewrite dict_get_setdefault_append, fmap_app, filter_app.
  change (category <$> [b]) with [category b].
  destruct (decide (category b = c)) as [<-|Hne].
  - rewrite decide_True by set_solver.
    rewrite filter_cons_True, filter_nil by done.
    rewrite IH. destruct (decide (category b ∈ category <$> pile)) as [|Hnin];
      [done|].
    pose proof (group_of_nil _ _ Hnin) as Hnil. unfold group_of in Hnil.
    by rewrite Hnil.
  - rewrite filter_cons_False, filter_nil, app_nil_r by done.
    rewrite IH. destruct (decide (c ∈ category <$> pile)).
    + by rewrite decide_True by set_solver.
    + by rewrite decide_False by set_solver.
Qed.

Lemma dict_at_group_by_category pile c :
  c ∈ dict_keys (group_by_category pile) →
  dict_at (group_by_category pile) c = ok (group_of c pile).
Proof.
  rewrite dict_keys_group_by_category, first_seen_elem. intros Hc.
  unfold dict_at. by rewrite dict_get_group_by_category, decide_True.
Qed.

Lemma group_of_elem c pile b : b ∈ group_of c pile ↔ b ∈ pile ∧ category b = c.
Proof. unfold group_of. rewrite list_elem_of_filter. tauto. Qed.

(** Taken together, the groups are the pile. *)
Lemma groups_perm (keys : list string) pile :
  NoDup keys → (∀ b, b ∈ pile → category b ∈ keys) →
  mjoin ((λ c, group_of c pile) <$> keys) ≡ₚ pile.
Proof.
  revert pile. induction keys as [|k keys IH]; intros pile Hnd Hall; simpl.
  { destruct pile as [|b pile]; [done|]. specialize (Hall b). set_solver. }
  apply NoDup_cons in Hnd as [Hk Hnd].
  etrans; [|apply (filter_app_complement (λ b, category b = k) pile)].
  apply Permutation_app; [done|].
  etrans; [|apply (IH (filter (λ b, ¬ category b = k) pile) Hnd)].
  - apply reflexive_eq. f_equal. apply list_fmap_ext.
    intros i c Hc%list_elem_of_lookup_2. unfold group_of. rewrite list_filter_filter.
    apply list_filter_iff. intros b. split; [|tauto].
    intros Hb. split; [done|]. intros Hbk. apply Hk. by rewrite <-Hbk, Hb.
  - intros b [Hb Hin]%list_elem_of_filter.
    specialize (Hall b Hin). apply elem_of_cons in Hall as [?|?]; done.
Qed.
End grouping.

Section group_facts.
Implicit Types (pile : list Book) (c : string) (l : list string).

Lemma filter_group_of c c' pile :
  filter (λ b, category b = c) (group_of c' pile)
  = if decide (c = c') then group_of c pile else [].
Proof.
  unfold group_of. rewrite list_filter_filter.
  destruct (decide (c = c')) as [->|Hne].
  - apply list_filter_iff. tauto.
  - induction pile as [|b pile IH]; [done|].
    rewrite filter_cons_False; [done|]. intros [? ?]. congruence.
Qed.

(** Out of several groups laid end to end, one category picks its group. *)
Lemma filter_groups c pile l :
  NoDup l →
  filter (λ b, category b = c) (mjoin ((λ c', group_of c' pile) <$> l))
  = if decide (c ∈ l) then group_of c pile else [].
Proof.
  induction l as [|c' l IH]; [done|].
  rewrite NoDup_cons. intros [Hc' Hnd].
  rewrite fmap_cons.
  change (mjoin (?x :: ?xs)) with (x ++ mjoin xs).
  rewrite filter_app, filter_group_of, (IH Hnd).
  destruct (decide (c = c')) as [->|Hne].
  - rewrite (decide_True (P := c' ∈ c' :: l)) by (apply elem_of_cons; by left).
    by rewrite decide_False, app_nil_r.
  - destruct (decide (c ∈ l)).
    + by rewrite decide_True by (apply elem_of_cons; by right).
    + by rewrite decide_False by (rewrite elem_of_cons; tauto).
Qed.
End group_facts.

(** ** Round-robin placement *)

Section placement.
Implicit Types (d : dict) (c : string) (cats : list string)
  (sh : Shelf) (shs : list Shelf) (n i j p : nat).

Lemma elem_of_slot_categories n i cats j c :
  c ∈ slot_categories n i cats j
  ↔ ∃ p, cats !! p = Some c ∧ (i + p) mod n = j.
Proof.
  revert i. induction cats as [|c' cats IH]; intros i; simpl.
  { split; [by intros ?%elem_of_nil|by intros (p & ? & _)]. }
  assert (c ∈ slot_categories n (S i) cats j
          ↔ ∃ p, (c' :: cats) !! S p = Some c ∧ (i + S p) mod n = j) as IH'.
  { rewrite IH. by setoid_rewrite Nat.add_succ_comm. }
  destruct (decide (i mod n = j)) as [Hi|Hi].
  - rewrite elem_of_cons, IH'. split.
    + intros [->|(p & ? & ?)]; [|by eauto].
      exists 0. by rewrite Nat.add_0_r.
    + intros ([|p] & Hp & Hj); [left; by injection Hp|right; by eauto].
  - rewrite IH'. split; [by intros (p & ? & ?); eauto|].
    intros ([|p] & Hp & Hj); [|by eauto].
    by rewrite Nat.add_0_r in Hj.
Qed.

Lemma slot_categories_sublist n i cats j :
  slot_categories n i cats j `sublist_of` cats.
Proof.
  revert i. induction cats as [|c cats IH]; intros i; simpl; [done|].
  destruct (decide (i mod n = j)); [by apply sublist_skip|by apply sublist_cons].
Qed.

Lemma slot_categories_NoDup n i cats j :
  NoDup cats → NoDup (slot_categories n i cats j).
Proof.
  intros Hnd. eapply sublist_NoDup; [done|apply slot_categories_sublist].
Qed.

Lemma add_books_nil sh : add_books sh [] = sh.
Proof. destruct sh. unfold add_books. simpl. by rewrite app_nil_r. Qed.

Lemma add_books_add_books sh bs1 bs2 :
  add_books (add_books sh bs1) bs2 = add_books sh (bs1 ++ bs2).
Proof. unfold add_books. simpl. by rewrite app_assoc. Qed.

(** The loop never leaves the list of shelves and never misses a key; it
    appends to every shelf its share. *)
Lemma place_eq d n i cats shs :
  length shs = n → n ≠ 0 → (∀ c, c ∈ cats → c ∈ dict_keys d) →
  place d n i cats shs
  = ok (imap (λ j sh, add_books sh (share d n i cats j)) shs).
Proof.
  intros Hlen Hn. revert i shs Hlen.
  induction cats as [|c cats IH]; intros i shs Hlen Hkeys.
  { simpl. f_equal. apply list_eq. intros j.
    rewrite list_lookup_imap. unfold share. simpl.
    destruct (shs !! j); simpl; [by rewrite add_books_nil|done]. }
  cbn [place].
  assert (i mod n < length shs) as Hlt.
  { rewrite Hlen. by apply Nat.mod_upper_bound. }
  destruct (lookup_lt_is_Some_2 _ _ Hlt) as [shelf Hshelf].
  unfold shelf_at. rewrite Hshelf. cbn [bind ok].
  assert (c ∈ dict_keys d) as Hc.
  { apply Hkeys, elem_of_cons. by left. }
  apply dict_get_is_Some in Hc as [bs Hbs].
  unfold dict_at. rewrite Hbs. cbn [bind ok].
  rewrite IH.
  - f_equal. apply list_eq. intros j.
    rewrite !list_lookup_imap, list_lookup_insert.
    unfold share. cbn [slot_categories].
    destruct (decide (i mod n = j)) as [<-|Hne].
    + rewrite decide_True, Hshelf by done. simpl.
      rewrite add_books_add_books. unfold dict_books at 2. by rewrite Hbs.
    + by rewrite decide_False by tauto.
  - by rewrite length_insert.
  - intros c' Hc'. apply Hkeys, elem_of_cons. by right.
Qed.
End placement.

(** ** [organize_books_by_category] in closed form *)

Section organize.
Context `{Runtime}.
Implicit Types (room : Room) (pile : list Book) (sh : Shelf)
  (shs : list Shelf) (b : Book) (c : string) (i j : nat).

Lemma dict_books_group pile c :
  dict_books (group_by_category pile) c = group_of c pile.
Proof.
  unfold dict_books. rewrite dict_get_group_by_category.
  destruct (decide (c ∈ category <$> pile)); [done|].
  simpl. symmetry. by apply group_of_nil.
Qed.

Lemma category_order_perm pile :
  category_order pile ≡ₚ first_seen (category <$> pile).
Proof.
  unfold category_order. by rewrite sorted_perm, dict_keys_group_by_category.
Qed.

Lemma category_order_NoDup pile : NoDup (category_order pile).
Proof. rewrite category_order_perm. apply first_seen_NoDup. Qed.

Lemma category_order_elem pile c :
  c ∈ category_order pile ↔ ∃ b, b ∈ pile ∧ category b = c.
Proof.
  rewrite category_order_perm, first_seen_elem, list_elem_of_fmap.
  naive_solver.
Qed.

Lemma organize_eq room pile :
  shelves room ≠ [] →
  organize_books_by_category room pile
  = ok {| owner := owner room; shelves := organized (shelves room) pile |}.
Proof.
  intros Hne. unfold organize_books_by_category.
  rewrite decide_False by done. cbn zeta.
  rewrite place_eq.
  - cbn [bind ok]. do 2 f_equal. unfold organized.
    apply list_eq. intros j.
    rewrite list_lookup_imap, list_lookup_fmap, !list_lookup_imap.
    destruct (shelves room !! j) as [sh|]; [|done]. simpl.
    unfold add_books, share. simpl. do 3 f_equal.
    apply list_fmap_ext. intros ? c _. apply dict_books_group.
  - by rewrite length_fmap.
  - destruct (shelves room); [done|]. simpl. lia.
  - intros c. by rewrite sorted_elem.
Qed.

Lemma organized_length shs pile : length (organized shs pile) = length shs.
Proof. unfold organized. by rewrite length_imap. Qed.

Lemma organized_names shs pile : name <$> organized shs pile = name <$> shs.
Proof.
  apply list_eq. intros j. unfold organized.
  rewrite !list_lookup_fmap, list_lookup_imap.
  by destruct (shs !! j).
Qed.

Lemma organized_lookup shs pile j sh' :
  organized shs pile !! j = Some sh' ↔
  ∃ sh, shs !! j = Some sh ∧ name sh' = name sh
    ∧ books sh' = mjoin ((λ c, group_of c pile)
        <$> slot_categories (length shs) 0 (category_order pile) j).
Proof.
  unfold organized. rewrite list_lookup_imap.
  destruct (shs !! j) as [sh|]; simpl.
  - split.
    + intros [= <-]. by exists sh.
    + intros (sh0 & [= <-] & Hn & Hb). destruct sh'. simpl in *. by subst.
  - split; [done|]. by intros (? & ? & _).
Qed.

(** Only the names of the shelves reach the result. *)
Lemma organized_names_only shs1 shs2 pile :
  name <$> shs1 = name <$> shs2 → organized shs1 pile = organized shs2 pile.
Proof.
  intros Hnames. assert (length shs1 = length shs2) as Hlen.
  { by rewrite <-(length_fmap name shs1), Hnames, length_fmap. }
  apply list_eq. intros j. unfold organized.
  rewrite !list_lookup_imap, Hlen.
  assert (name <$> shs1 !! j = name <$> shs2 !! j) as Hj.
  { by rewrite <-!list_lookup_fmap, Hnames. }
  destruct (shs1 !! j), (shs2 !! j); simpl in *; congruence.
Qed.

(** A book of the shelf at [j] came from the pile, and the position of its
    category in the visiting order is [j] modulo the number of shelves. *)
Lemma organized_books_elem shs pile j sh' b :
  organized shs pile !! j = Some sh' →
  b ∈ books sh' ↔
  b ∈ pile ∧ ∃ p, category_order pile !! p = Some (category b)
                  ∧ p mod length shs = j.
Proof.
  intros (sh & _ & _ & ->)%organized_lookup.
  rewrite list_elem_of_join. split.
  - intros (bs & Hb & (c & -> & Hc)%list_elem_of_fmap).
    apply group_of_elem in Hb as [Hb <-].
    by apply elem_of_slot_categories in Hc.
  - intros (Hb & Hp). exists (group_of (category b) pile). split.
    + by apply group_of_elem.
    + apply list_elem_of_fmap. exists (category b). split; [done|].
      by apply elem_of_slot_categories.
Qed.

Lemma organized_categories shs pile j sh' c :
  organized shs pile !! j = Some sh' →
  c ∈ categories sh' ↔
  ∃ p, category_order pile !! p = Some c ∧ p mod length shs = j.
Proof.
  intros Hj. unfold categories.
  rewrite elem_of_list_to_set, list_elem_of_fmap. split.
  - intros (b & -> & Hb). by apply (organized_books_elem _ _ _ _ _ Hj) in Hb as [_ ?].
  - intros (p & Hp & Hmod).
    assert (c ∈ category_order pile) as Hc by by eapply list_elem_of_lookup_2.
    apply category_order_elem in Hc as (b & Hb & <-).
    exists b. split; [done|].
    apply (organized_books_elem _ _ _ _ _ Hj). by eauto.
Qed.

(** A category has one position in the visiting order. *)
Lemma category_order_position pile p q c :
  category_order pile !! p = Some c → category_order pile !! q = Some c → p = q.
Proof. apply NoDup_lookup, category_order_NoDup. Qed.
End organize.

(** ** Nothing lost, nothing doubled *)

Section partition.
Context `{Runtime}.
Implicit Types (pile : list Book) (shs : list Shelf) (cats : list string).

Lemma join_cons_at {A} (part : nat → list A) (x : A) (k : nat)
    (js : list nat) :
  NoDup js → k ∈ js →
  mjoin ((λ j, if decide (k = j) then x :: part j else part j) <$> js)
  ≡ₚ x :: mjoin (part <$> js).
Proof.
  induction js as [|j js IH]; intros Hnd Hk; [by apply elem_of_nil in Hk|].
  apply NoDup_cons in Hnd as [Hj Hnd]. rewrite !fmap_cons. simpl.
  destruct (decide (k = j)) as [->|Hne].
  - simpl. do 2 f_equiv. apply reflexive_eq. f_equal.
    apply list_fmap_ext. intros ? j' Hj'%list_elem_of_lookup_2.
    rewrite decide_False; [done|]. by intros <-.
  - apply elem_of_cons in Hk as [?|Hk]; [done|].
    rewrite IH by done. by rewrite Permutation_middle.
Qed.

(** The slots of the shelves share out the visiting order. *)
Lemma slots_perm n i cats :
  n ≠ 0 → mjoin (slot_categories n i cats <$> seq 0 n) ≡ₚ cats.
Proof.
  intros Hn. revert i. induction cats as [|c cats IH]; intros i.
  { simpl. apply reflexive_eq, join_nil_2, Forall_fmap, Forall_forall.
    by intros. }
  cbn [slot_categories].
  rewrite (join_cons_at (slot_categories n (S i) cats) c (i mod n)).
  - by rewrite IH.
  - apply NoDup_seq.
  - apply elem_of_seq. pose proof (Nat.mod_upper_bound i n Hn). lia.
Qed.

Lemma join_fmap_join {A B} (g : A → list B) (ls : list (list A)) :
  mjoin (g <$> mjoin ls) = mjoin ((λ l, mjoin (g <$> l)) <$> ls).
Proof.
  induction ls as [|l ls IH]; [done|].
  simpl. by rewrite fmap_app, join_app, IH.
Qed.

Lemma organized_books shs pile :
  books <$> organized shs pile
  = (λ j, mjoin ((λ c, group_of c pile)
       <$> slot_categories (length shs) 0 (category_order pile) j))
    <$> seq 0 (length shs).
Proof.
  apply list_eq. intros j. unfold organized.
  rewrite !list_lookup_fmap, list_lookup_imap.
  destruct (shs !! j) as [sh|] eqn:Hj; simpl.
  - rewrite (lookup_seq_lt 0 (length shs) j); [done|].
    by eapply lookup_lt_Some.
  - rewrite lookup_seq_ge; [done|]. by apply lookup_ge_None.
Qed.

(** The books on the shelves are the books of the pile, each as often as
    the pile has it. *)
Lemma organized_perm shs pile :
  shs ≠ [] → mjoin (books <$> organized shs pile) ≡ₚ pile.
Proof.
  intros Hne. rewrite organized_books.
  trans (mjoin ((λ c, group_of c pile)
           <$> mjoin (slot_categories (length shs) 0 (category_order pile)
                        <$> seq 0 (length shs)))).
  { apply reflexive_eq. by rewrite join_fmap_join, <-list_fmap_compose. }
  rewrite slots_perm by by destruct shs.
  apply groups_perm; [apply category_order_NoDup|].
  intros b Hb. apply category_order_elem. by exists b.
Qed.
End partition.

(** ** The verifier *)

Section verify.
Context `{Runtime}.
Implicit Types (shs : list Shelf) (sh : Shelf) (c nm first : string)
  (cats : list string) (seen : gmap string string).

Lemma elem_of_categories sh c :
  c ∈ categories sh ↔ ∃ b, b ∈ books sh ∧ category b = c.
Proof.
  unfold categories. rewrite elem_of_list_to_set, list_elem_of_fmap.
  naive_solver.
Qed.

Lemma set_iter_categories sh c :
  c ∈ set_iter (category <$> books sh) ↔ c ∈ categories sh.
Proof. unfold categories. by rewrite set_iter_elem, elem_of_list_to_set. Qed.

(** Past a category that is free or bound to this very name. *)
Lemma verify_shelf_pass nm c0 cats seen :
  (∀ first, seen !! c0 = Some first → first = nm) →
  verify_shelf nm (c0 :: cats) seen
  = verify_shelf nm cats (<[c0 := nm]> seen).
Proof.
  intros Hfree. cbn [verify_shelf].
  destruct (seen !! c0) as [first|]; [|done].
  by rewrite decide_False by (intros Hne; by apply Hne, Hfree).
Qed.

(** The inner loop: it raises at a category that [seen] binds to another
    name, and otherwise binds every category of the shelf to its name. *)
Lemma verify_shelf_spec nm cats seen :
  match verify_shelf nm cats seen with
  | inr seen' =>
      (∀ c first, c ∈ cats → seen !! c = Some first → first = nm)
      ∧ ∀ c, seen' !! c = if decide (c ∈ cats) then Some nm else seen !! c
  | inl e =>
      ∃ c first, c ∈ cats ∧ seen !! c = Some first ∧ first ≠ nm
        ∧ e = AssertionError (found_on c first nm)
  end.
Proof.
  revert seen. induction cats as [|c0 cats IH]; intros seen.
  { simpl. split; [by intros ? ? ?%elem_of_nil|done]. }
  destruct (seen !! c0) as [first0|] eqn:Hc0.
  - destruct (decide (first0 = nm)) as [->|Hne0].
    2:{ cbn [verify_shelf]. rewrite Hc0, decide_True by done.
        exists c0, first0. rewrite elem_of_cons. eauto. }
    rewrite verify_shelf_pass by (intros; congruence).
    rewrite (insert_id seen c0 nm Hc0).
    specialize (IH seen).
    destruct (verify_shelf nm cats seen) as [e|seen'].
    + destruct IH as (c & first & Hc & ?). exists c, first.
      rewrite elem_of_cons. eauto.
    + destruct IH as [IH1 IH2]. split.
      * intros c first [->|Hc]%elem_of_cons Hsome; [congruence|by eauto].
      * intros c. rewrite IH2.
        destruct (decide (c ∈ cats)) as [Hc|Hc].
        { by rewrite decide_True by (apply elem_of_cons; by right). }
        destruct (decide (c = c0)) as [->|Hcc].
        { by rewrite decide_True by (apply elem_of_cons; by left). }
        by rewrite decide_False by (rewrite elem_of_cons; tauto).
  - rewrite verify_shelf_pass by (intros; congruence).
    specialize (IH (<[c0 := nm]> seen)).
    destruct (verify_shelf nm cats (<[c0 := nm]> seen)) as [e|seen'].
    + destruct IH as (c & first & Hc & Hsome & Hne & ->).
      exists c, first. rewrite elem_of_cons.
      destruct (decide (c0 = c)) as [->|Hcc].
      * rewrite lookup_insert_eq in Hsome. congruence.
      * rewrite lookup_insert_ne in Hsome by done. eauto.
    + destruct IH as [IH1 IH2]. split.
      * intros c first [->|Hc]%elem_of_cons Hsome; [congruence|].
        destruct (decide (c0 = c)) as [->|Hcc]; [congruence|].
        apply (IH1 c); [done|]. by rewrite lookup_insert_ne.
      * intros c. rewrite IH2.
        destruct (decide (c ∈ cats)) as [Hc|Hc].
        { by rewrite decide_True by (apply elem_of_cons; by right). }
        destruct (decide (c0 = c)) as [->|Hcc].
        { rewrite lookup_insert_eq.
          by rewrite decide_True by (apply elem_of_cons; by left). }
        rewrite lookup_insert_ne by done.
        by rewrite decide_False by (rewrite elem_of_cons; naive_solver).
Qed.

(** The outer loop, from any [seen]. *)
Lemma verify_shelves_spec shs seen :
  match verify_shelves shs seen with
  | inr _ =>
      ∀ j sj c, shs !! j = Some sj → c ∈ categories sj →
        (∀ first, seen !! c = Some first → first = name sj)
        ∧ (∀ i si, i < j → shs !! i = Some si → c ∈ categories si →
             name si = name sj)
  | inl e =>
      ∃ j sj c first,
        shs !! j = Some sj ∧ c ∈ categories sj ∧ first ≠ name sj
        ∧ e = AssertionError (found_on c first (name sj))
        ∧ (seen !! c = Some first
           ∨ ∃ i si, i < j ∧ shs !! i = Some si ∧ c ∈ categories si
               ∧ name si = first)
  end.
Proof.
  revert seen. induction shs as [|sh shs IH]; intros seen; [done|].
  cbn [verify_shelves].
  pose proof (verify_shelf_spec (name sh)
    (set_iter (category <$> books sh)) seen) as Hsh.
  destruct (verify_shelf _ _ seen) as [e|seen']; cbn [bind].
  { destruct Hsh as (c & first & Hc & Hsome & Hne & ->).
    exists 0, sh, c, first. apply set_iter_categories in Hc. eauto 10. }
  destruct Hsh as [Hold Hnew]. specialize (IH seen').
  destruct (verify_shelves shs seen') as [e|[]].
  - destruct IH as (j & sj & c & first & Hj & Hc & Hne & -> & Hfrom).
    exists (S j), sj, c, first. split_and!; [done..|].
    destruct Hfrom as [Hsome|(i & si & Hi & Hsi & Hci & Hni)].
    + rewrite Hnew in Hsome.
      destruct (decide (c ∈ set_iter (category <$> books sh))) as [Hin|];
        [|by left].
      right. exists 0, sh. apply set_iter_categories in Hin.
      split_and!; [lia|done|done|congruence].
    + right. exists (S i), si. split_and!; [lia|done..].
  - intros [|j] sj c Hj Hc.
    + injection Hj as <-. split; [|intros ? ? ?; lia].
      intros first. apply Hold. by apply set_iter_categories.
    + destruct (IH j sj c Hj Hc) as [IHseen IHbefore]. cbn in Hj.
      pose proof (Hnew c) as Hnewc.
      destruct (decide (c ∈ set_iter (category <$> books sh))) as [Hin|Hin].
      * assert (name sh = name sj) as Hname by by apply IHseen.
        split.
        { intros first Hsome. rewrite <-Hname. by eapply Hold. }
        intros [|i] si Hi Hsi Hci; [by injection Hsi as <-|].
        apply (IHbefore i); [lia|done..].
      * split.
        { intros first Hsome. apply IHseen. by rewrite Hnewc. }
        intros [|i] si Hi Hsi Hci.
        { injection Hsi as <-. by apply set_iter_categories in Hci. }
        apply (IHbefore i); [lia|done..].
Qed.

(** The verifier raises exactly the conflicts, and names one it raises. *)
Lemma verify_ok_iff room :
  verify_constraint_same_category_same_shelf room = ok tt
  ↔ ¬ ∃ c first second, conflict (shelves room) c first second.
Proof.
  unfold verify_constraint_same_category_same_shelf.
  pose proof (verify_shelves_spec (shelves room) ∅) as Hspec.
  destruct (verify_shelves (shelves room) ∅) as [e|[]]; split.
  - done.
  - intros Hnone. exfalso. apply Hnone.
    destruct Hspec as (j & sj & c & first & Hj & Hc & Hne & _ & Hfrom).
    destruct Hfrom as [Hsome|(i & si & Hi & Hsi & Hci & Hni)];
      [by rewrite lookup_empty in Hsome|].
    exists c, first, (name sj), i, j, si, sj. by split_and!.
  - intros _ (c & first & second & i & j & si & sj
              & Hi & Hsi & Hsj & Hci & Hcj & <- & <- & Hne).
    destruct (Hspec j sj c Hsj Hcj) as [_ Hbefore].
    by apply Hne, (Hbefore i).
  - done.
Qed.

Lemma verify_raise room e :
  verify_constraint_same_category_same_shelf room = raise e →
  ∃ c first second,
    e = AssertionError (found_on c first second)
    ∧ conflict (shelves room) c first second.
Proof.
  unfold verify_constraint_same_category_same_shelf.
  pose proof (verify_shelves_spec (shelves room) ∅) as Hspec.
  destruct (verify_shelves (shelves room) ∅) as [e'|[]]; [|done].
  intros [= ->].
  destruct Hspec as (j & sj & c & first & Hj & Hc & Hne & -> & Hfrom).
  destruct Hfrom as [Hsome|(i & si & Hi & Hsi & Hci & Hni)];
    [by rewrite lookup_empty in Hsome|].
  exists c, first, (name sj). split; [done|].
  exists i, j, si, sj. by split_and!.
Qed.

(** The verifier returns or raises [AssertionError]: nothing else. *)
Lemma verify_cases room :
  verify_constraint_same_category_same_shelf room = ok tt
  ∨ ∃ c first second,
      verify_constraint_same_category_same_shelf room
      = raise (AssertionError (found_on c first second))
      ∧ conflict (shelves room) c first second.
Proof.
  destruct (verify_constraint_same_category_same_shelf room) as [e|[]] eqn:Hv;
    [|by left].
  right. destruct (verify_raise room e Hv) as (c & first & second & -> & ?).
  by exists c, first, second.
Qed.
End verify.

Section verify_facts.
Context `{Runtime}.
Implicit Types (room : Room) (sh : Shelf) (b : Book) (c : string).

(** In a room the verifier accepts, shelves that share a category share
    their name, whichever comes first. *)
Lemma verify_ok_same_name room i j si sj c :
  verify_constraint_same_category_same_shelf room = ok tt →
  shelves room !! i = Some si → shelves room !! j = Some sj →
  c ∈ categories si → c ∈ categories sj → name si = name sj.
Proof.
  rewrite verify_ok_iff. intros Hnone Hi Hj Hci Hcj.
  destruct (decide (name si = name sj)) as [|Hne]; [done|].
  exfalso. apply Hnone.
  destruct (Nat.lt_total i j) as [Hlt | [-> | Hlt] ].
  - exists c, (name si), (name sj), i, j, si, sj. by split_and!.
  - congruence.
  - exists c, (name sj), (name si), j, i, sj, si. by split_and!.
Qed.

Lemma categories_add_books sh b c :
  c ∈ categories (add_books sh [b]) ↔ c ∈ categories sh ∨ c = category b.
Proof.
  unfold categories, add_books. cbn [books].
  rewrite fmap_app, !elem_of_list_to_set, elem_of_app.
  change (category <$> [b]) with [category b].
  by rewrite list_elem_of_singleton.
Qed.

(** Up to its first apostrophe a text is read in one way only. *)
Lemma append_quote_inj (x x' r r' : string) :
  quote_free x → quote_free x' →
  x +:+ String "'" r = x' +:+ String "'" r' → x = x' ∧ r = r'.
Proof.
  revert x'. induction x as [|a x IH]; intros [|a' x'] Hx Hx' Heq;
    cbn [String.append quote_free] in *.
  - by injection Heq as ->.
  - injection Heq as Ha _. destruct Hx' as [Hne _]. by destruct Hne.
  - injection Heq as Ha _. destruct Hx as [Hne _]. by destruct Hne.
  - injection Heq as -> Heq. destruct Hx as [_ Hx]. destruct Hx' as [_ Hx'].
    destruct (IH x' Hx Hx' Heq) as [-> ->]. done.
Qed.

Lemma append_quote_tail (s s' : string) : s +:+ "'" = s' +:+ "'" → s = s'.
Proof.
  revert s'. induction s as [|a s IH]; intros [|a' s'] Heq;
    cbn [String.append] in Heq.
  - done.
  - injection Heq as _ Heq. by destruct s'.
  - injection Heq as _ Heq. by destruct s.
  - injection Heq as -> Heq. by rewrite (IH s' Heq).
Qed.

(** The message tells the category and the two names apart. *)
Lemma found_on_inj (c first second c' first' second' : string) :
  quote_free c → quote_free first → quote_free c' → quote_free first' →
  found_on c first second = found_on c' first' second' →
  c = c' ∧ first = first' ∧ second = second'.
Proof.
  intros Hc Hf Hc' Hf' Heq. unfold found_on in Heq.
  cbn [String.append] in Heq. injection Heq as Heq.
  apply append_quote_inj in Heq as [-> Heq]; [|done..].
  cbn [String.append] in Heq. injection Heq as Heq.
  apply append_quote_inj in Heq as [-> Heq]; [|done..].
  cbn [String.append] in Heq. injection Heq as Heq.
  by apply append_quote_tail in Heq as ->.
Qed.
End verify_facts.

(** * The contract of the catalog *)

(** ** Placement *)

(** C1.  Whatever the pile and the room with at least one shelf,
    [organize_books_by_category] returns, and then: the books on the shelves
    are the books of the pile as a multiset (none lost, none doubled, a book
    the pile has twice is there twice); every book of the pile is on one
    shelf and on no other; a shelf whose index no position of the visiting
    order hits is empty. *)
Theorem organize_partitions_pile `{Runtime} (room : Room) (pile : list Book) :
  shelves room ≠ [] →
  ∃ room',
    organize_books_by_category room pile = ok room'
    ∧ mjoin (books <$> shelves room') ≡ₚ pile
    ∧ (∀ b, b ∈ pile →
         ∃ j, (∃ sh, shelves room' !! j = Some sh ∧ b ∈ books sh)
              ∧ ∀ j' sh', shelves room' !! j' = Some sh' → b ∈ books sh' →
                  j' = j)
    ∧ (∀ j sh, shelves room' !! j = Some sh →
         (∀ i, i < length (category_order pile) →
               i mod length (shelves room) ≠ j) →
         books sh = []).
Proof.
  intros Hne. eexists. split; [by apply organize_eq|]. cbn [shelves].
  split; [by apply organized_perm|]. split.
  - intros b Hb.
    assert (category b ∈ category_order pile) as Hc.
    { apply category_order_elem. by exists b. }
    apply list_elem_of_lookup_1 in Hc as [p Hp].
    exists (p mod length (shelves room)). split.
    + assert (p mod length (shelves room) < length (organized (shelves room) pile))
        as [sh Hsh]%lookup_lt_is_Some_2.
      { rewrite organized_length. apply Nat.mod_upper_bound.
        by destruct (shelves room). }
      exists sh. split; [done|].
      apply (organized_books_elem _ _ _ _ _ Hsh). by eauto.
    + intros j' sh' Hsh' Hb'.
      apply (organized_books_elem _ _ _ _ _ Hsh') in Hb' as (_ & q & Hq & <-).
      by rewrite (category_order_position pile p q (category b)).
  - intros j sh Hsh Hfree.
    destruct (books sh) as [|b bs] eqn:Hbooks; [done|]. exfalso.
    assert (b ∈ books sh) as Hb by (rewrite Hbooks; left).
    apply (organized_books_elem _ _ _ _ _ Hsh) in Hb as (_ & p & Hp & Hmod).
    apply (Hfree p); [|done]. by eapply lookup_lt_Some.
Qed.

Lemma organize_partitions_pile_witness :
  shelves demo_room ≠ []
  ∧ ∃ room',
      organize_books_by_category demo_room demo_pile = ok room'
      ∧ mjoin (books <$> shelves room') ≡ₚ demo_pile
      ∧ (∀ b, b ∈ demo_pile →
           ∃ j, (∃ sh, shelves room' !! j = Some sh ∧ b ∈ books sh)
                ∧ ∀ j' sh', shelves room' !! j' = Some sh' → b ∈ books sh' →
                    j' = j)
      ∧ (∀ j sh, shelves room' !! j = Some sh →
           (∀ i, i < length (category_order demo_pile) →
                 i mod length (shelves demo_room) ≠ j) →
           books sh = []).
Proof.
  split; [discriminate|].
  apply (organize_partitions_pile demo_room demo_pile). discriminate.
Defined.

(** C2.  Right after [organize_books_by_category] every category of the
    pile is on one shelf only: that shelf has every book of the category, no
    other shelf has the category, and the verifier, called on the result,
    returns without raising. *)
Theorem organize_one_category_one_shelf `{Runtime}
    (room : Room) (pile : list Book) :
  shelves room ≠ [] →
  ∃ room',
    organize_books_by_category room pile = ok room'
    ∧ (∀ c, c ∈ category <$> pile →
         ∃ j sh, shelves room' !! j = Some sh
           ∧ (∀ b, b ∈ pile → category b = c → b ∈ books sh)
           ∧ ∀ j' sh', shelves room' !! j' = Some sh' → c ∈ categories sh' →
               j' = j)
    ∧ verify_constraint_same_category_same_shelf room' = ok tt.
Proof.
  intros Hne. eexists. split; [by apply organize_eq|]. cbn [shelves].
  assert (∀ i j si sj c,
    organized (shelves room) pile !! i = Some si →
    organized (shelves room) pile !! j = Some sj →
    c ∈ categories si → c ∈ categories sj → i = j) as Hone.
  { intros i j si sj c Hi Hj Hci Hcj.
    apply (organized_categories _ _ _ _ _ Hi) in Hci as (p & Hp & <-).
    apply (organized_categories _ _ _ _ _ Hj) in Hcj as (q & Hq & <-).
    by rewrite (category_order_position pile p q c). }
  split.
  - intros c (b0 & -> & Hb0)%list_elem_of_fmap.
    assert (category b0 ∈ category_order pile) as Hc.
    { apply category_order_elem. by exists b0. }
    apply list_elem_of_lookup_1 in Hc as [p Hp].
    assert (p mod length (shelves room) < length (organized (shelves room) pile))
      as [sh Hsh]%lookup_lt_is_Some_2.
    { rewrite organized_length. apply Nat.mod_upper_bound.
      by destruct (shelves room). }
    exists (p mod length (shelves room)), sh. split_and!; [done| |].
    + intros b Hb Hcat. apply (organized_books_elem _ _ _ _ _ Hsh).
      split; [done|]. exists p. by rewrite Hcat.
    + intros j' sh' Hsh' Hc'. apply (Hone _ _ _ _ _ Hsh' Hsh Hc').
      apply (organized_categories _ _ _ _ _ Hsh). by eauto.
  - apply verify_ok_iff. cbn [shelves].
    intros (c & first & second & i & j & si & sj
            & Hlt & Hi & Hj & Hci & Hcj & _).
    pose proof (Hone _ _ _ _ _ Hi Hj Hci Hcj). lia.
Qed.

Lemma organize_one_category_one_shelf_witness :
  shelves demo_room ≠ []
  ∧ ∃ room',
      organize_books_by_category demo_room demo_pile = ok room'
      ∧ (∀ c, c ∈ category <$> demo_pile →
           ∃ j sh, shelves room' !! j = Some sh
             ∧ (∀ b, b ∈ demo_pile → category b = c → b ∈ books sh)
             ∧ ∀ j' sh', shelves room' !! j' = Some sh' → c ∈ categories sh' →
                 j' = j)
      ∧ verify_constraint_same_category_same_shelf room' = ok tt.
Proof.
  split; [discriminate|].
  apply (organize_one_category_one_shelf demo_room demo_pile). discriminate.
Defined.

(** C3, as worded, fails: the pile meets "novel" before "Novel"; the two are
    equal once lower-cased, "Novel" is the smaller in byte order, and yet
    "novel" is visited first and goes to the first shelf. *)
Lemma organize_ties_not_in_byte_order :
  lower "novel" = lower "Novel"
  ∧ String.ltb "Novel" "novel" = true
  ∧ category_order
      [mkBook "b1" "Emma" "Jane Austen" "novel" None;
       mkBook "b2" "Ulysses" "James Joyce" "Novel" None]
    = ["novel"; "Novel"]
  ∧ organize_books_by_category
      (mkRoom "Bob" [mkShelf "Left" []; mkShelf "Right" []])
      [mkBook "b1" "Emma" "Jane Austen" "novel" None;
       mkBook "b2" "Ulysses" "James Joyce" "Novel" None]
    = ok (mkRoom "Bob"
            [mkShelf "Left" [mkBook "b1" "Emma" "Jane Austen" "novel" None];
             mkShelf "Right" [mkBook "b2" "Ulysses" "James Joyce" "Novel" None]])
  ∧ ¬ ties_in_byte_order
        (category_order
           [mkBook "b1" "Emma" "Jane Austen" "novel" None;
            mkBook "b2" "Ulysses" "James Joyce" "Novel" None]).
Proof.
  split_and!; [reflexivity..|].
  intros Hties.
  by specialize (Hties 0 1 "novel" "Novel" (Nat.lt_0_1) eq_refl eq_refl eq_refl).
Qed.

(** C3, amended.  The categories of the pile are visited in ascending order
    of their lower-cased forms; categories whose lower-cased forms are equal
    are visited in the order in which the pile first meets them.  The whole
    group of the category at position [i] goes, in pile order, to the shelf
    at index [i mod n], [n] the number of shelves, which keeps its name.  In
    particular, on ASCII text: a pile whose categories are Classic,
    Dystopian, Programming, Sci-Fi and Mystery, on shelves Left, Right and
    Top, leaves Classic then Programming on Left, Dystopian then Sci-Fi on
    Right, and Mystery alone on Top. *)
Theorem organize_round_robin `{Runtime} (room : Room) (pile : list Book) :
  shelves room ≠ [] →
  (∀ c, c ∈ category_order pile ↔ c ∈ category <$> pile)
  ∧ NoDup (category_order pile)
  ∧ StronglySorted (λ c1 c2, String.ltb (lower c2) (lower c1) = false)
      (category_order pile)
  ∧ (∀ k, filter (λ c, lower c = k) (category_order pile)
          = filter (λ c, lower c = k) (first_seen (category <$> pile)))
  ∧ (∃ room',
       organize_books_by_category room pile = ok room'
       ∧ ∀ i c, category_order pile !! i = Some c →
           ∃ sh0 sh,
             shelves room !! (i mod length (shelves room)) = Some sh0
             ∧ shelves room' !! (i mod length (shelves room)) = Some sh
             ∧ name sh = name sh0
             ∧ filter (λ b, category b = c) (books sh) = group_of c pile)
  ∧ (∀ (pile5 bs1 bs2 bs3 : list Book) (o : string),
       (∀ c, c ∈ category <$> pile5
             ↔ c ∈ ["Classic"; "Dystopian"; "Programming"; "Sci-Fi"; "Mystery"]) →
       category_order (H := ascii_runtime) pile5
       = ["Classic"; "Dystopian"; "Mystery"; "Programming"; "Sci-Fi"]
       ∧ organize_books_by_category (H := ascii_runtime)
           (mkRoom o [mkShelf "Left" bs1; mkShelf "Right" bs2; mkShelf "Top" bs3])
           pile5
         = ok (mkRoom o
                 [mkShelf "Left"
                    (group_of "Classic" pile5 ++ group_of "Programming" pile5);
                  mkShelf "Right"
                    (group_of "Dystopian" pile5 ++ group_of "Sci-Fi" pile5);
                  mkShelf "Top" (group_of "Mystery" pile5)])).
Proof.
  intros Hne. split_and!.
  - intros c. rewrite category_order_elem, list_elem_of_fmap. naive_solver.
  - apply category_order_NoDup.
  - apply (sorted_ordered lower).
  - intros k. unfold category_order.
    by rewrite (sorted_stable lower), dict_keys_group_by_category.
  - eexists. split; [by apply organize_eq|]. cbn [shelves].
    intros i c Hi.
    assert (i mod length (shelves room) < length (shelves room)) as Hlt.
    { apply Nat.mod_upper_bound. by destruct (shelves room). }
    destruct (lookup_lt_is_Some_2 _ _ Hlt) as [sh0 Hsh0].
    assert (is_Some (organized (shelves room) pile
                       !! (i mod length (shelves room)))) as [sh Hsh].
    { apply lookup_lt_is_Some_2. by rewrite organized_length. }
    exists sh0, sh. split_and!; [done..| |].
    + apply organized_lookup in Hsh as (sh1 & Hsh1 & Hname & _). congruence.
    + apply organized_lookup in Hsh as (_ & _ & _ & ->).
      rewrite filter_groups
        by apply slot_categories_NoDup, category_order_NoDup.
      rewrite decide_True; [done|].
      apply elem_of_slot_categories. by exists i.
  - intros pile5 bs1 bs2 bs3 o Hcats.
    assert (category_order (H := ascii_runtime) pile5
            = ["Classic"; "Dystopian"; "Mystery"; "Programming"; "Sci-Fi"])
      as Horder.
    { unfold category_order.
      rewrite (sorted_perm_unique lower _
        ["Classic"; "Dystopian"; "Programming"; "Sci-Fi"; "Mystery"]).
      - reflexivity.
      - rewrite dict_keys_group_by_category.
        apply NoDup_Permutation.
        + apply first_seen_NoDup.
        + by apply (bool_decide_unpack _).
        + intros c. by rewrite first_seen_elem.
      - by apply (bool_decide_unpack _). }
    split; [done|].
    rewrite organize_eq by done. unfold organized. cbn [shelves length imap].
    rewrite Horder. cbn [imap compose name owner].
    change (slot_categories 3 0 _ 0) with ["Classic"; "Programming"].
    change (slot_categories 3 0 _ 1) with ["Dystopian"; "Sci-Fi"].
    change (slot_categories 3 0 _ 2) with ["Mystery"].
    cbn. by rewrite !app_nil_r.
Qed.

Lemma organize_round_robin_witness :
  shelves demo_room ≠ []
  ∧ (∀ c, c ∈ category_order demo_pile ↔ c ∈ category <$> demo_pile)
  ∧ NoDup (category_order demo_pile)
  ∧ StronglySorted (λ c1 c2, String.ltb (lower c2) (lower c1) = false)
      (category_order demo_pile)
  ∧ (∀ k, filter (λ c, lower c = k) (category_order demo_pile)
          = filter (λ c, lower c = k) (first_seen (category <$> demo_pile)))
  ∧ (∃ room',
       organize_books_by_category demo_room demo_pile = ok room'
       ∧ ∀ i c, category_order demo_pile !! i = Some c →
           ∃ sh0 sh,
             shelves demo_room !! (i mod length (shelves demo_room)) = Some sh0
             ∧ shelves room' !! (i mod length (shelves demo_room)) = Some sh
             ∧ name sh = name sh0
             ∧ filter (λ b, category b = c) (books sh) = group_of c demo_pile)
  ∧ (∀ (pile5 bs1 bs2 bs3 : list Book) (o : string),
       (∀ c, c ∈ category <$> pile5
             ↔ c ∈ ["Classic"; "Dystopian"; "Programming"; "Sci-Fi"; "Mystery"]) →
       category_order (H := ascii_runtime) pile5
       = ["Classic"; "Dystopian"; "Mystery"; "Programming"; "Sci-Fi"]
       ∧ organize_books_by_category (H := ascii_runtime)
           (mkRoom o [mkShelf "Left" bs1; mkShelf "Right" bs2; mkShelf "Top" bs3])
           pile5
         = ok (mkRoom o
                 [mkShelf "Left"
                    (group_of "Classic" pile5 ++ group_of "Programming" pile5);
                  mkShelf "Right"
                    (group_of "Dystopian" pile5 ++ group_of "Sci-Fi" pile5);
                  mkShelf "Top" (group_of "Mystery" pile5)])).
Proof.
  split; [discriminate|].
  apply (organize_round_robin demo_room demo_pile). discriminate.
Defined.

(** The run of [demo()] up to the sort: the shelves after
    [organize_books_by_category]. *)
Example organize_demo :
  organize_books_by_category demo_room demo_pile
  = ok (mkRoom "Bob"
          [mkShelf "Left"
             [mkBook "b001" "A Tale of Two Cities" "Charles Dickens" "Classic"
                None;
              mkBook "b003" "The Pragmatic Programmer" "Andrew Hunt"
                "Programming" None;
              mkBook "b004" "Clean Code" "Robert C. Martin" "Programming" None];
           mkShelf "Right"
             [mkBook "b002" "Brave New World" "Aldous Huxley" "Dystopian" None;
              mkBook "b005" "Do Androids Dream of Electric Sheep?"
                "Philip K. Dick" "Sci-Fi" None;
              mkBook "b006" "I, Robot" "Isaac Asimov" "Sci-Fi" None];
           mkShelf "Top"
             [mkBook "b007" "The Name of the Rose" "Umberto Eco" "Mystery"
                None]]).
Proof. reflexivity. Qed.

(** C4.  [organize_books_by_category] raises [ValueError] when the room has
    no shelf, whatever the pile, and only then: with at least one shelf it
    returns a room and raises nothing. *)
Theorem organize_raises_iff_no_shelves `{Runtime}
    (room : Room) (pile : list Book) :
  ((∃ msg, organize_books_by_category room pile = raise (ValueError msg))
   ↔ shelves room = [])
  ∧ (shelves room = [] →
     organize_books_by_category room pile
     = raise (ValueError "No shelves in the room."))
  ∧ (shelves room ≠ [] →
     ∃ room', organize_books_by_category room pile = ok room').
Proof.
  assert (shelves room = [] →
          organize_books_by_category room pile
          = raise (ValueError "No shelves in the room.")) as Hempty.
  { intros Hnil. unfold organize_books_by_category.
    by rewrite decide_True. }
  split_and!; [|done|].
  - split; [|by eauto].
    intros [msg Hraise]. destruct (decide (shelves room = [])) as [|Hne]; [done|].
    by rewrite organize_eq in Hraise.
  - intros Hne. eexists. by apply organize_eq.
Qed.

(** C5.  Organizing again with the same pile changes nothing: on the room
    the first call left, the second call returns that very room.  The call
    reads the shelves' names only, so a room with the same owner and the same
    shelf names gets the same result whatever its shelves held. *)
Theorem organize_twice `{Runtime} (room : Room) (pile : list Book) :
  shelves room ≠ [] →
  ∃ room1,
    organize_books_by_category room pile = ok room1
    ∧ organize_books_by_category room1 pile = ok room1
    ∧ ∀ room2, owner room2 = owner room →
        name <$> shelves room2 = name <$> shelves room →
        organize_books_by_category room2 pile = ok room1.
Proof.
  intros Hne. eexists. split; [by apply organize_eq|].
  assert (∀ room2, owner room2 = owner room →
            name <$> shelves room2 = name <$> shelves room →
            organize_books_by_category room2 pile
            = ok {| owner := owner room;
                    shelves := organized (shelves room) pile |}) as Hnames.
  { intros room2 Howner Hshs. rewrite organize_eq.
    - by rewrite Howner, (organized_names_only _ _ _ Hshs).
    - intros Hnil. rewrite Hnil in Hshs. by destruct (shelves room). }
  split; [|done]. apply Hnames; [done|]. apply organized_names.
Qed.

Lemma organize_twice_witness :
  shelves demo_room ≠ []
  ∧ ∃ room1,
      organize_books_by_category demo_room demo_pile = ok room1
      ∧ organize_books_by_category room1 demo_pile = ok room1
      ∧ ∀ room2, owner room2 = owner demo_room →
          name <$> shelves room2 = name <$> shelves demo_room →
          organize_books_by_category room2 demo_pile = ok room1.
Proof.
  split; [discriminate|].
  apply (organize_twice demo_room demo_pile). discriminate.
Defined.

(** C8.  With an empty pile and at least one shelf the call returns; every
    shelf is left empty, whatever it held, under the name it had. *)
Theorem organize_empty_pile `{Runtime} (room : Room) :
  shelves room ≠ [] →
  ∃ room',
    organize_books_by_category room [] = ok room'
    ∧ Forall (λ sh, books sh = []) (shelves room')
    ∧ name <$> shelves room' = name <$> shelves room
    ∧ owner room' = owner room.
Proof.
  intros Hne. eexists. split; [by apply organize_eq|]. cbn [shelves owner].
  split_and!; [|apply organized_names|done].
  apply Forall_lookup. intros j sh (sh0 & _ & _ & ->)%organized_lookup. done.
Qed.

Lemma organize_empty_pile_witness :
  shelves (mkRoom "Bob" [mkShelf "Left" demo_pile; mkShelf "Right" []]) ≠ []
  ∧ ∃ room',
      organize_books_by_category
        (mkRoom "Bob" [mkShelf "Left" demo_pile; mkShelf "Right" []]) []
      = ok room'
      ∧ Forall (λ sh, books sh = []) (shelves room')
      ∧ name <$> shelves room'
        = name <$> shelves
            (mkRoom "Bob" [mkShelf "Left" demo_pile; mkShelf "Right" []])
      ∧ owner room'
        = owner (mkRoom "Bob" [mkShelf "Left" demo_pile; mkShelf "Right" []]).
Proof.
  split; [discriminate|].
  apply (organize_empty_pile
           (mkRoom "Bob" [mkShelf "Left" demo_pile; mkShelf "Right" []])).
  discriminate.
Defined.

(** ** Sorting *)

(** C6.  [sort_books_by_title] leaves the shelf with its name and with its
    books in non-descending order of case-folded title; books whose
    case-folded titles are equal stay in the order they had; an empty shelf
    is left as it is.  [sort_books_on_all_shelves] does this to every shelf,
    in the order of the room, and always returns. *)
Theorem sort_books_by_title_spec `{Runtime} (sh : Shelf) (room : Room) :
  name (sort_books_by_title sh) = name sh
  ∧ StronglySorted
      (λ b1 b2, String.ltb (casefold (title b2)) (casefold (title b1)) = false)
      (books (sort_books_by_title sh))
  ∧ (∀ k, filter (λ b, casefold (title b) = k) (books (sort_books_by_title sh))
          = filter (λ b, casefold (title b) = k) (books sh))
  ∧ books (sort_books_by_title sh) ≡ₚ books sh
  ∧ (books sh = [] → sort_books_by_title sh = sh)
  ∧ owner (sort_books_on_all_shelves room) = owner room
  ∧ Forall2 (λ before after, after = sort_books_by_title before)
      (shelves room) (shelves (sort_books_on_all_shelves room)).
Proof.
  split_and!.
  - done.
  - apply (sorted_ordered title_key).
  - intros k. apply (sorted_stable title_key).
  - apply sorted_perm.
  - destruct sh as [nm bs]. simpl. by intros ->.
  - done.
  - cbn [sort_books_on_all_shelves shelves].
    apply Forall2_fmap_r, Forall_Forall2_diag, Forall_forall. done.
Qed.

(** C9.  Sorting a shelf permutes its books: the same books as often, the
    same set of categories, the same name.  So
    [sort_books_on_all_shelves] keeps the books of every shelf, and a room
    that the verifier accepts is still accepted once sorted (and one it
    rejects is still rejected). *)
Theorem sort_preserves_invariant `{Runtime} (sh : Shelf) (room : Room) :
  books (sort_books_by_title sh) ≡ₚ books sh
  ∧ categories (sort_books_by_title sh) = categories sh
  ∧ name (sort_books_by_title sh) = name sh
  ∧ Forall2 (λ before after,
       books after ≡ₚ books before ∧ categories after = categories before
       ∧ name after = name before)
      (shelves room) (shelves (sort_books_on_all_shelves room))
  ∧ (verify_constraint_same_category_same_shelf room = ok tt
     ↔ verify_constraint_same_category_same_shelf
         (sort_books_on_all_shelves room) = ok tt).
Proof.
  assert (∀ sh0, categories (sort_books_by_title sh0) = categories sh0) as Hcats.
  { intros sh0. unfold categories. cbn [sort_books_by_title books].
    apply set_eq. intros c. rewrite !elem_of_list_to_set.
    by rewrite (sorted_perm title_key). }
  split_and!.
  - apply sorted_perm.
  - apply Hcats.
  - done.
  - cbn [sort_books_on_all_shelves shelves].
    apply Forall2_fmap_r, Forall_Forall2_diag, Forall_forall.
    intros sh0 _. split_and!; [apply sorted_perm|apply Hcats|done].
  - rewrite !verify_ok_iff. cbn [sort_books_on_all_shelves shelves].
    apply not_iff_compat.
    split; intros (c & first & second & i & j & si & sj
                   & Hlt & Hi & Hj & Hci & Hcj & Hni & Hnj & Hne).
    + exists c, first, second, i, j,
        (sort_books_by_title si), (sort_books_by_title sj).
      rewrite !list_lookup_fmap, Hi, Hj, !Hcats. by split_and!.
    + rewrite list_lookup_fmap in Hi, Hj.
      destruct (shelves room !! i) as [si0|] eqn:Hi0; [|done].
      destruct (shelves room !! j) as [sj0|] eqn:Hj0; [|done].
      injection Hi as <-. injection Hj as <-. rewrite Hcats in Hci, Hcj.
      exists c, first, second, i, j, si0, sj0. by split_and!.
Qed.

(** ** Verification *)

(** C7.  The verifier raises exactly when a later shelf holds a category
    that an earlier shelf of another name holds; what it raises is
    [AssertionError] with the message
    [Category '<category>' was found on shelves '<earlier>' and '<later>'],
    written with such a category, the earlier shelf's name and the later
    shelf's name; the message cannot be read in another way: whoever finds a
    category and two names in it (the category and the first name free of
    apostrophes) has found these; otherwise the verifier returns [None].  In
    particular: append a book to a shelf while a shelf of another name holds
    the book's category; then the verifier raises, and, in a room that it
    accepted before, its message is written with that category and these
    two shelf names. *)
Theorem verify_raises_exactly_conflicts `{Runtime} (room : Room) :
  ((∃ e, verify_constraint_same_category_same_shelf room = raise e)
   ↔ ∃ c first second, conflict (shelves room) c first second)
  ∧ (∀ e, verify_constraint_same_category_same_shelf room = raise e →
       ∃ c first second,
         e = AssertionError
               ("Category '" +:+ c +:+ "' was found on shelves '" +:+ first
                  +:+ "' and '" +:+ second +:+ "'")
         ∧ conflict (shelves room) c first second
         ∧ ∀ c' first' second',
             quote_free c → quote_free first →
             quote_free c' → quote_free first' →
             e = AssertionError
                   ("Category '" +:+ c' +:+ "' was found on shelves '"
                      +:+ first' +:+ "' and '" +:+ second' +:+ "'") →
             c' = c ∧ first' = first ∧ second' = second)
  ∧ (verify_constraint_same_category_same_shelf room = ok tt
     ↔ ¬ ∃ c first second, conflict (shelves room) c first second)
  ∧ (∀ i j si sj b,
       shelves room !! i = Some si → shelves room !! j = Some sj →
       category b ∈ categories si → name si ≠ name sj →
       let room' := {| owner := owner room;
                       shelves := <[j := add_books sj [b]]> (shelves room) |} in
       (∃ c first second,
          verify_constraint_same_category_same_shelf room'
          = raise (AssertionError
                     ("Category '" +:+ c +:+ "' was found on shelves '"
                        +:+ first +:+ "' and '" +:+ second +:+ "'")))
       ∧ (verify_constraint_same_category_same_shelf room = ok tt →
          verify_constraint_same_category_same_shelf room'
          = raise (AssertionError
                     ("Category '" +:+ category b
                        +:+ "' was found on shelves '" +:+ name si
                        +:+ "' and '" +:+ name sj +:+ "'"))
          ∨ verify_constraint_same_category_same_shelf room'
            = raise (AssertionError
                       ("Category '" +:+ category b
                          +:+ "' was found on shelves '" +:+ name sj
                          +:+ "' and '" +:+ name si +:+ "'"))))
  ∧ (∀ c first second c' first' second',
       quote_free c → quote_free first → quote_free c' → quote_free first' →
       "Category '" +:+ c +:+ "' was found on shelves '" +:+ first
         +:+ "' and '" +:+ second +:+ "'"
       = "Category '" +:+ c' +:+ "' was found on shelves '" +:+ first'
           +:+ "' and '" +:+ second' +:+ "'" →
       c = c' ∧ first = first' ∧ second = second').
Proof.
  assert (
  ((∃ e, verify_constraint_same_category_same_shelf room = raise e)
   ↔ ∃ c first second, conflict (shelves room) c first second)
  ∧ (∀ e, verify_constraint_same_category_same_shelf room = raise e →
       ∃ c first second,
         e = AssertionError (found_on c first second)
         ∧ conflict (shelves room) c first second)
  ∧ (verify_constraint_same_category_same_shelf room = ok tt
     ↔ ¬ ∃ c first second, conflict (shelves room) c first second)
  ∧ (∀ i j si sj b,
       shelves room !! i = Some si → shelves room !! j = Some sj →
       category b ∈ categories si → name si ≠ name sj →
       let room' := {| owner := owner room;
                       shelves := <[j := add_books sj [b]]> (shelves room) |} in
       (∃ c first second,
          verify_constraint_same_category_same_shelf room'
          = raise (AssertionError (found_on c first second)))
       ∧ (verify_constraint_same_category_same_shelf room = ok tt →
          verify_constraint_same_category_same_shelf room'
          = raise (AssertionError (found_on (category b) (name si) (name sj)))
          ∨ verify_constraint_same_category_same_shelf room'
            = raise (AssertionError
                       (found_on (category b) (name sj) (name si)))))) as (Hiff & Hraise & Hok & Happend).
  {
    split_and!.
    - split.
      + intros [e He]. apply verify_raise in He as (c & first & second & _ & ?).
        by eauto.
      + intros Hconflict. destruct (verify_cases room) as [Hok|Hraise].
        * by apply verify_ok_iff in Hok.
        * destruct Hraise as (c & first & second & -> & _). by eauto.
    - apply verify_raise.
    - apply verify_ok_iff.
    - intros i j si sj b Hi Hj Hcat Hne room'.
      assert (j < length (shelves room)) as Hjlt by by eapply lookup_lt_Some.
      assert (∀ k sk, shelves room' !! k = Some sk →
                (k = j ∧ sk = add_books sj [b])
                ∨ (k ≠ j ∧ shelves room !! k = Some sk)) as Hlook.
      { intros k sk. unfold room'. cbn [shelves]. rewrite list_lookup_insert.
        destruct (decide (j = k ∧ j < length (shelves room))) as [[-> _]|Hn].
        - intros [= <-]. by left.
        - intros Hk. right. split; [|done]. intros ->. tauto. }
      destruct (verify_cases room')
        as [Hok'|(c & first & second & Hraise & Hconflict)].
      { exfalso. apply Hne.
        assert (i ≠ j) as Hij by (intros ->; congruence).
        apply (verify_ok_same_name room' i j si (add_books sj [b]) (category b));
          [done| | |done|].
        - unfold room'. cbn [shelves]. by rewrite list_lookup_insert_ne.
        - unfold room'. cbn [shelves]. by rewrite list_lookup_insert_eq.
        - apply categories_add_books. by right. }
      split; [by eauto|]. intros Hok. rewrite Hraise.
      destruct Hconflict as (i' & j' & si' & sj' & Hlt & Hi' & Hj' & Hci & Hcj
                             & <- & <- & Hne').
      apply Hlook in Hi' as [[-> ->]|[Hi'j Hi']];
        apply Hlook in Hj' as [[-> ->]|[Hj'j Hj']]; [lia| | |].
      + (* the shelf appended to comes first *)
        right. cbn [add_books name] in *.
        apply categories_add_books in Hci as [Hci | ->].
        { exfalso. apply Hne'.
          apply (verify_ok_same_name room j j' sj sj' c); done. }
        by rewrite (verify_ok_same_name room j' i sj' si (category b)).
      + (* the shelf appended to comes second *)
        left. cbn [add_books name] in *.
        apply categories_add_books in Hcj as [Hcj | ->].
        { exfalso. apply Hne'.
          apply (verify_ok_same_name room i' j si' sj c); done. }
        by rewrite (verify_ok_same_name room i' i si' si (category b)).
      + exfalso. apply Hne'.
        apply (verify_ok_same_name room i' j' si' sj' c); done.
  }
  split_and!; [exact Hiff| |exact Hok|exact Happend|].
  - intros e (c & first & second & -> & Hconflict)%Hraise.
    exists c, first, second. split_and!; [done..|].
    intros c' first' second' Hc Hf Hc' Hf' Hmsg.
    assert (found_on c first second = found_on c' first' second') as Heq
      by exact (f_equal (λ e, match e with
                              | AssertionError msg => msg
                              | _ => EmptyString
                              end) Hmsg).
    by destruct (found_on_inj _ _ _ _ _ _ Hc Hf Hc' Hf' Heq) as (-> & -> & ->).
  - intros c first second c' first' second' Hc Hf Hc' Hf' Hmsg.
    by apply found_on_inj.
Qed.

(** C10.  The verifier tells shelves apart by name only: when every two
    shelves that share a category bear the same name, it returns without
    raising, however many shelves hold the category. *)
Theorem verify_same_name_passes `{Runtime} (room : Room) :
  (∀ i j si sj c,
     shelves room !! i = Some si → shelves room !! j = Some sj →
     c ∈ categories si → c ∈ categories sj → name si = name sj) →
  verify_constraint_same_category_same_shelf room = ok tt.
Proof.
  intros Hsame. apply verify_ok_iff.
  intros (c & first & second & i & j & si & sj
          & _ & Hi & Hj & Hci & Hcj & <- & <- & Hne).
  by apply Hne, (Hsame i j si sj c).
Qed.

Lemma verify_same_name_passes_witness :
  (∀ i j si sj c,
     shelves (mkRoom "Bob"
                [mkShelf "A" [mkBook "b1" "Emma" "Jane Austen" "Novel" None];
                 mkShelf "A" [mkBook "b2" "Ulysses" "James Joyce" "Novel" None]])
       !! i = Some si →
     shelves (mkRoom "Bob"
                [mkShelf "A" [mkBook "b1" "Emma" "Jane Austen" "Novel" None];
                 mkShelf "A" [mkBook "b2" "Ulysses" "James Joyce" "Novel" None]])
       !! j = Some sj →
     c ∈ categories si → c ∈ categories sj → name si = name sj)
  ∧ verify_constraint_same_category_same_shelf
      (mkRoom "Bob"
         [mkShelf "A" [mkBook "b1" "Emma" "Jane Austen" "Novel" None];
          mkShelf "A" [mkBook "b2" "Ulysses" "James Joyce" "Novel" None]])
    = ok tt.
Proof.
  assert (∀ i j si sj c,
    shelves (mkRoom "Bob"
               [mkShelf "A" [mkBook "b1" "Emma" "Jane Austen" "Novel" None];
                mkShelf "A" [mkBook "b2" "Ulysses" "James Joyce" "Novel" None]])
      !! i = Some si →
    shelves (mkRoom "Bob"
               [mkShelf "A" [mkBook "b1" "Emma" "Jane Austen" "Novel" None];
                mkShelf "A" [mkBook "b2" "Ulysses" "James Joyce" "Novel" None]])
      !! j = Some sj →
    c ∈ categories si → c ∈ categories sj → name si = name sj) as Hsame.
  { intros [|[|i]] [|[|j]] si sj c Hi Hj _ _; simpl in Hi, Hj;
      try discriminate Hi; try discriminate Hj;
      injection Hi as <-; injection Hj as <-; reflexivity. }
  split; [exact Hsame|].
  exact (verify_same_name_passes _ Hsame).
Defined.

(** The same two shelves under different names: the verifier raises. *)
Example verify_two_names :
  verify_constraint_same_category_same_shelf
    (mkRoom "Bob"
       [mkShelf "A" [mkBook "b1" "Emma" "Jane Austen" "Novel" None];
        mkShelf "B" [mkBook "b2" "Ulysses" "James Joyce" "Novel" None]])
  = raise (AssertionError "Category 'Novel' was found on shelves 'A' and 'B'").
Proof. reflexivity. Qed.

(** After [demo()]'s placement, a Classic put on the shelf Right by hand. *)
Example verify_after_manual_append :
  (room ←! organize_books_by_category demo_room demo_pile;
   verify_constraint_same_category_same_shelf
     {| owner := owner room;
        shelves :=
          alter (λ sh, add_books sh
                   [mkBook "b008" "Emma" "Jane Austen" "Classic" None])
            1 (shelves room) |})
  = raise (AssertionError
             "Category 'Classic' was found on shelves 'Left' and 'Right'").
Proof. reflexivity. Qed.

(** The whole of [demo()]: place, sort, verify. *)
Example demo_run :
  (room ←! organize_books_by_category demo_room demo_pile;
   verify_constraint_same_category_same_shelf (sort_books_on_all_shelves room))
  = ok tt
  ∧ (room ←! organize_books_by_category demo_room demo_pile;
     ok ((λ sh, title <$> books sh)
           <$> shelves (sort_books_on_all_shelves room)))
    = ok [["A Tale of Two Cities"; "Clean Code"; "The Pragmatic Programmer"];
          ["Brave New World"; "Do Androids Dream of Electric Sheep?";
           "I, Robot"];
          ["The Name of the Rose"]].
Proof. split; reflexivity. Qed.


(** * Further properties of the program *)

(** ** The dictionary of the groups *)

Section dict_facts.
Implicit Types (d : dict) (k c : string) (pile : list Book).

(** A dictionary is its keys, each with what it holds. *)
Lemma dict_entries d :
  NoDup (dict_keys d) → d = (λ k, (k, dict_books d k)) <$> dict_keys d.
Proof.
  unfold dict_keys, dict_books.
  induction d as [|[k bs] d IH]; [done|].
  rewrite !fmap_cons. cbn [fst]. rewrite NoDup_cons. intros [Hk Hnd].
  cbn [dict_get]. rewrite decide_True by done. cbn [default]. f_equal.
  rewrite (IH Hnd) at 1. apply list_fmap_ext.
  intros i k' Hk'%list_elem_of_lookup_2. f_equal.
  cbn [dict_get]. rewrite decide_False; [done|]. by intros ->.
Qed.

Lemma group_by_category_entries pile :
  group_by_category pile
  = (λ c, (c, group_of c pile)) <$> first_seen (category <$> pile).
Proof.
  rewrite (dict_entries (group_by_category pile))
    by apply dict_keys_group_NoDup.
  rewrite dict_keys_group_by_category. apply list_fmap_ext.
  intros i c _. f_equal. unfold dict_books.
  rewrite dict_get_group_by_category.
  destruct (decide (c ∈ category <$> pile)); [done|].
  simpl. symmetry. by apply group_of_nil.
Qed.
End dict_facts.

(** X1.  The dictionary that the grouping loop builds: its keys are the
    categories of the pile, once each, in the order in which the pile first
    meets them; [by_cat[c]] is the list of the books of category [c] in pile
    order, and raises [KeyError] for a category the pile does not have; no
    list in it is empty, and together the lists hold the pile. *)
Theorem group_by_category_lookup (pile : list Book) :
  dict_keys (group_by_category pile) = first_seen (category <$> pile)
  ∧ NoDup (dict_keys (group_by_category pile))
  ∧ (∀ c, c ∈ category <$> pile →
       dict_at (group_by_category pile) c
       = ok (filter (λ b, category b = c) pile))
  ∧ (∀ c, c ∉ category <$> pile →
       dict_at (group_by_category pile) c = raise (KeyError c))
  ∧ Forall (λ entry, entry.2 ≠ []) (group_by_category pile)
  ∧ mjoin ((group_by_category pile).*2) ≡ₚ pile.
Proof.
  split_and!.
  - apply dict_keys_group_by_category.
  - apply dict_keys_group_NoDup.
  - intros c Hc. unfold dict_at.
    by rewrite dict_get_group_by_category, decide_True.
  - intros c Hc. unfold dict_at.
    by rewrite dict_get_group_by_category, decide_False.
  - rewrite group_by_category_entries. apply Forall_fmap, Forall_forall.
    intros c Hc. rewrite first_seen_elem in Hc. cbn [snd compose].
    apply list_elem_of_fmap in Hc as (b & -> & Hb).
    intros Hnil. assert (b ∈ group_of (category b) pile) as Hin
      by by apply group_of_elem.
    rewrite Hnil in Hin. by apply elem_of_nil in Hin.
  - rewrite group_by_category_entries, <-list_fmap_compose.
    apply groups_perm; [apply first_seen_NoDup|].
    intros b Hb. apply first_seen_elem, list_elem_of_fmap. by exists b.
Qed.

(** ** The layout of the shelves *)

Section layout.
Context `{Runtime}.
Implicit Types (cats : list string) (n i j d k : nat).

(** The slot of shelf [j] takes every [n]-th category, from the first
    position that falls on [j]. *)
Lemma slot_categories_lookup n i cats j d k :
  d < n → (i + d) mod n = j →
  slot_categories n i cats j !! k = cats !! (d + k * n).
Proof.
  revert i d k. induction cats as [|c cats IH]; intros i d k Hd Hj.
  { by rewrite !lookup_nil. }
  assert (n ≠ 0) as Hn by lia.
  cbn [slot_categories]. destruct (decide (i mod n = j)) as [Hi|Hi].
  - assert (d = 0) as ->.
    { destruct d as [|d]; [done|]. exfalso.
      pose proof (Nat.div_mod_eq i n) as E1.
      pose proof (Nat.div_mod_eq (i + S d) n) as E2.
      pose proof (Nat.mod_upper_bound i n Hn).
      rewrite Hj, <-Hi in E2.
      destruct (Nat.le_gt_cases ((i + S d) / n) (i / n)) as [Hq|Hq].
      - pose proof (Nat.mul_le_mono_l _ _ n Hq). lia.
      - pose proof (Nat.mul_le_mono_l _ _ n Hq). lia. }
    destruct k as [|k]; [done|].
    replace (0 + S k * n) with (S (n - 1 + k * n)) by lia.
    change ((c :: ?l) !! S ?m) with (l !! m).
    apply IH; [lia|].
    replace (S i + (n - 1)) with (i + 1 * n) by lia.
    by rewrite Nat.Div0.mod_add.
  - destruct d as [|d]; [by rewrite Nat.add_0_r in Hj|].
    change (S d + k * n) with (S (d + k * n)).
    change ((c :: ?l) !! S ?m) with (l !! m).
    apply IH; [lia|].
    by replace (S i + d) with (i + S d) by lia.
Qed.

Lemma slot_categories_length n cats j k :
  j < n → k < length (slot_categories n 0 cats j) ↔ j + k * n < length cats.
Proof.
  intros Hj. rewrite <-!lookup_lt_is_Some.
  rewrite (slot_categories_lookup n 0 cats j j k); [done..|].
  by apply Nat.mod_small.
Qed.

Lemma organized_shelf_categories shs pile j sh :
  organized shs pile !! j = Some sh →
  categories sh
  = list_to_set (slot_categories (length shs) 0 (category_order pile) j).
Proof.
  intros Hj. apply set_eq. intros c.
  rewrite (organized_categories _ _ _ _ _ Hj), elem_of_list_to_set.
  by rewrite elem_of_slot_categories.
Qed.
End layout.

(** X2.  The layout after [organize_books_by_category]: the shelf at index
    [j] holds, one after the other, the groups of the categories at
    positions [j], [j + n], [j + 2n], ... of the visiting order ([n] the
    number of shelves), each group whole and in pile order. *)
Theorem organize_layout `{Runtime} (room : Room) (pile : list Book) :
  shelves room ≠ [] →
  ∃ room',
    organize_books_by_category room pile = ok room'
    ∧ ∀ j sh, shelves room' !! j = Some sh →
        ∃ cs, books sh = mjoin ((λ c, filter (λ b, category b = c) pile) <$> cs)
              ∧ ∀ k, cs !! k
                     = category_order pile !! (j + k * length (shelves room)).
Proof.
  intros Hne. eexists. split; [by apply organize_eq|]. cbn [shelves].
  intros j sh Hsh.
  assert (j < length (shelves room)) as Hj.
  { rewrite <-(organized_length (shelves room) pile). by eapply lookup_lt_Some. }
  apply organized_lookup in Hsh as (_ & _ & _ & Hbooks).
  eexists. split; [exact Hbooks|].
  intros k. apply slot_categories_lookup; [done|]. by apply Nat.mod_small.
Qed.

Lemma organize_layout_witness :
  shelves demo_room ≠ []
  ∧ ∃ room',
      organize_books_by_category demo_room demo_pile = ok room'
      ∧ ∀ j sh, shelves room' !! j = Some sh →
          ∃ cs, books sh
                = mjoin ((λ c, filter (λ b, category b = c) demo_pile) <$> cs)
                ∧ ∀ k, cs !! k
                       = category_order demo_pile
                           !! (j + k * length (shelves demo_room)).
Proof.
  split; [discriminate|].
  apply (organize_layout demo_room demo_pile). discriminate.
Defined.

(** X3.  The round robin is even in categories (not in books): after
    [organize_books_by_category] no shelf holds more than one category more
    than another, and a shelf never holds more categories than a shelf before
    it. *)
Theorem organize_balanced `{Runtime} (room : Room) (pile : list Book) :
  shelves room ≠ [] →
  ∃ room',
    organize_books_by_category room pile = ok room'
    ∧ ∀ j1 j2 sh1 sh2,
        shelves room' !! j1 = Some sh1 → shelves room' !! j2 = Some sh2 →
        size (categories sh1) ≤ size (categories sh2) + 1
        ∧ (j1 ≤ j2 → size (categories sh2) ≤ size (categories sh1)).
Proof.
  intros Hne. eexists. split; [by apply organize_eq|]. cbn [shelves].
  intros j1 j2 sh1 sh2 Hsh1 Hsh2.
  assert (∀ j sh, organized (shelves room) pile !! j = Some sh →
            j < length (shelves room)
            ∧ ∀ k, k < size (categories sh)
                   ↔ j + k * length (shelves room)
                     < length (category_order pile)) as Hsize.
  { intros j sh Hsh.
    assert (j < length (shelves room)) as Hj.
    { rewrite <-(organized_length (shelves room) pile).
      by eapply lookup_lt_Some. }
    split; [done|]. intros k.
    rewrite (organized_shelf_categories _ _ _ _ Hsh).
    rewrite size_list_to_set
      by apply slot_categories_NoDup, category_order_NoDup.
    by apply slot_categories_length. }
  destruct (Hsize _ _ Hsh1) as [Hj1 Hk1].
  destruct (Hsize _ _ Hsh2) as [Hj2 Hk2].
  split.
  - destruct (Nat.le_gt_cases (size (categories sh1))
                (size (categories sh2) + 1)) as [|Hgt]; [done|].
    exfalso.
    pose proof (proj1 (Hk1 (size (categories sh2) + 1)) ltac:(lia)).
    pose proof (Hk2 (size (categories sh2))). lia.
  - intros Hle. destruct (size (categories sh2)) as [|k] eqn:Hs2; [lia|].
    pose proof (proj1 (Hk2 k) ltac:(lia)).
    apply Nat.le_succ_l, Hk1. lia.
Qed.

Lemma organize_balanced_witness :
  shelves demo_room ≠ []
  ∧ ∃ room',
      organize_books_by_category demo_room demo_pile = ok room'
      ∧ ∀ j1 j2 sh1 sh2,
          shelves room' !! j1 = Some sh1 → shelves room' !! j2 = Some sh2 →
          size (categories sh1) ≤ size (categories sh2) + 1
          ∧ (j1 ≤ j2 → size (categories sh2) ≤ size (categories sh1)).
Proof.
  split; [discriminate|].
  apply (organize_balanced demo_room demo_pile). discriminate.
Defined.

(** X4.  With no more categories than shelves nothing is mixed: after
    [organize_books_by_category] the shelf at index [j] holds the books of
    the category at position [j] of the visiting order, in pile order, and
    nothing else; the shelves past the last category are empty. *)
Theorem organize_enough_shelves `{Runtime} (room : Room) (pile : list Book) :
  shelves room ≠ [] →
  length (category_order pile) ≤ length (shelves room) →
  ∃ room',
    organize_books_by_category room pile = ok room'
    ∧ ∀ j sh, shelves room' !! j = Some sh →
        books sh = match category_order pile !! j with
                   | Some c => filter (λ b, category b = c) pile
                   | None => []
                   end.
Proof.
  intros Hne Hfew. eexists. split; [by apply organize_eq|]. cbn [shelves].
  intros j sh Hsh.
  assert (j < length (shelves room)) as Hj.
  { rewrite <-(organized_length (shelves room) pile). by eapply lookup_lt_Some. }
  apply organized_lookup in Hsh as (_ & _ & _ & ->).
  pose proof (slot_categories_lookup (length (shelves room)) 0
                (category_order pile) j j) as Hslot.
  pose proof (Hslot 0 Hj (Nat.mod_small _ _ Hj)) as H0.
  pose proof (Hslot 1 Hj (Nat.mod_small _ _ Hj)) as H1.
  rewrite Nat.add_0_r in H0.
  rewrite (proj2 (lookup_ge_None (category_order pile) _)) in H1 by lia.
  destruct (slot_categories _ 0 (category_order pile) j) as [|c [|c' cs]].
  - by rewrite <-H0.
  - rewrite <-H0. cbn. by rewrite app_nil_r.
  - done.
Qed.

Lemma organize_enough_shelves_witness :
  shelves demo_room ≠ []
  ∧ length (category_order (take 3 demo_pile)) ≤ length (shelves demo_room)
  ∧ ∃ room',
      organize_books_by_category demo_room (take 3 demo_pile) = ok room'
      ∧ ∀ j sh, shelves room' !! j = Some sh →
          books sh = match category_order (take 3 demo_pile) !! j with
                     | Some c => filter (λ b, category b = c) (take 3 demo_pile)
                     | None => []
                     end.
Proof.
  assert (length (category_order (take 3 demo_pile))
          ≤ length (shelves demo_room)) as Hfew.
  { vm_compute. lia. }
  split; [discriminate|]. split; [exact Hfew|].
  apply (organize_enough_shelves demo_room (take 3 demo_pile));
    [discriminate|exact Hfew].
Defined.

(** ** Piles in another order, and the whole run *)

Section pipeline_facts.
Context `{Runtime}.
Implicit Types (room : Room) (pile : list Book) (sh : Shelf)
  (shs : list Shelf).

Lemma join_perm_pointwise {A} (ls1 ls2 : list (list A)) :
  Forall2 (≡ₚ) ls1 ls2 → mjoin ls1 ≡ₚ mjoin ls2.
Proof.
  induction 1 as [|l1 l2 ls1 ls2 Hl _ IH]; [done|].
  change (l1 ++ mjoin ls1 ≡ₚ l2 ++ mjoin ls2). by rewrite Hl, IH.
Qed.

Lemma join_fmap_perm {A B} (f g : A → list B) (l : list A) :
  (∀ x, f x ≡ₚ g x) → mjoin (f <$> l) ≡ₚ mjoin (g <$> l).
Proof.
  intros Hfg. apply join_perm_pointwise, Forall2_fmap, Forall_Forall2_diag.
  apply Forall_forall. by intros.
Qed.

Lemma elem_of_sublist_join {A} (l : list A) (ls : list (list A)) :
  l ∈ ls → l `sublist_of` mjoin ls.
Proof.
  induction 1 as [l ls|l l' ls _ IH].
  - apply sublist_inserts_r. done.
  - apply sublist_inserts_l. exact IH.
Qed.

(** Without ties between categories, the visiting order is that of the
    categories, wherever the pile has them. *)
Lemma category_order_pile_perm pile1 pile2 :
  pile1 ≡ₚ pile2 →
  NoDup (lower <$> first_seen (category <$> pile1)) →
  category_order pile1 = category_order pile2.
Proof.
  intros Hperm Hnd. unfold category_order.
  rewrite !dict_keys_group_by_category. symmetry.
  apply sorted_perm_unique; [|done].
  apply NoDup_Permutation; [apply first_seen_NoDup..|].
  intros c. by rewrite !first_seen_elem, Hperm.
Qed.

Lemma sort_books_by_title_categories sh :
  categories (sort_books_by_title sh) = categories sh.
Proof.
  unfold categories. cbn [sort_books_by_title books].
  apply set_eq. intros c. rewrite !elem_of_list_to_set.
  by rewrite (sorted_perm title_key).
Qed.

(** Sorting moves no category and renames no shelf: the conflicts stay. *)
Lemma conflict_sort shs c first second :
  conflict (sort_books_by_title <$> shs) c first second
  ↔ conflict shs c first second.
Proof.
  split; intros (i & j & si & sj & Hlt & Hi & Hj & Hci & Hcj & Hni & Hnj & Hne).
  - rewrite list_lookup_fmap in Hi, Hj.
    destruct (shs !! i) as [si0|] eqn:Hi0; [|done].
    destruct (shs !! j) as [sj0|] eqn:Hj0; [|done].
    injection Hi as <-. injection Hj as <-.
    rewrite sort_books_by_title_categories in Hci, Hcj.
    exists i, j, si0, sj0. by split_and!.
  - exists i, j, (sort_books_by_title si), (sort_books_by_title sj).
    rewrite !list_lookup_fmap, Hi, Hj, !sort_books_by_title_categories.
    by split_and!.
Qed.

(** A placement run leaves no category on two shelves. *)
Lemma organized_no_conflict shs pile c first second :
  ¬ conflict (organized shs pile) c first second.
Proof.
  intros (i & j & si & sj & Hlt & Hi & Hj & Hci & Hcj & _).
  apply (organized_categories _ _ _ _ _ Hi) in Hci as (p & Hp & <-).
  apply (organized_categories _ _ _ _ _ Hj) in Hcj as (q & Hq & <-).
  rewrite (category_order_position pile p q c) in Hlt by done. lia.
Qed.
End pipeline_facts.

(** X5.  Where the books lie in the pile does not matter to the placement,
    as long as no two categories of the pile differ by case only: for two
    piles with the same books in different orders, the visiting order is the
    same and every shelf gets the same categories and the same books (in
    another order, maybe). *)
Theorem organize_pile_order `{Runtime} (room : Room) (pile1 pile2 : list Book) :
  shelves room ≠ [] →
  pile1 ≡ₚ pile2 →
  NoDup (lower <$> first_seen (category <$> pile1)) →
  ∃ room1 room2,
    organize_books_by_category room pile1 = ok room1
    ∧ organize_books_by_category room pile2 = ok room2
    ∧ category_order pile1 = category_order pile2
    ∧ Forall2 (λ sh1 sh2, name sh1 = name sh2
                 ∧ categories sh1 = categories sh2
                 ∧ books sh1 ≡ₚ books sh2)
        (shelves room1) (shelves room2).
Proof.
  intros Hne Hperm Hnd. do 2 eexists.
  split; [by apply organize_eq|]. split; [by apply organize_eq|].
  pose proof (category_order_pile_perm _ _ Hperm Hnd) as Horder.
  split; [done|]. cbn [shelves].
  apply Forall2_same_length_lookup. split; [by rewrite !organized_length|].
  intros j sh1 sh2 Hsh1 Hsh2.
  rewrite (organized_shelf_categories _ _ _ _ Hsh1).
  rewrite (organized_shelf_categories _ _ _ _ Hsh2).
  apply organized_lookup in Hsh1 as (sh & Hsh & Hn1 & ->).
  apply organized_lookup in Hsh2 as (sh' & Hsh' & Hn2 & ->).
  rewrite Horder. split_and!; [congruence|done|].
  apply join_fmap_perm. intros c. unfold group_of. by rewrite Hperm.
Qed.

Lemma organize_pile_order_witness :
  shelves demo_room ≠ []
  ∧ demo_pile ≡ₚ reverse demo_pile
  ∧ NoDup (lower <$> first_seen (category <$> demo_pile))
  ∧ ∃ room1 room2,
      organize_books_by_category demo_room demo_pile = ok room1
      ∧ organize_books_by_category demo_room (reverse demo_pile) = ok room2
      ∧ category_order demo_pile = category_order (reverse demo_pile)
      ∧ Forall2 (λ sh1 sh2, name sh1 = name sh2
                   ∧ categories sh1 = categories sh2
                   ∧ books sh1 ≡ₚ books sh2)
          (shelves room1) (shelves room2).
Proof.
  assert (demo_pile ≡ₚ reverse demo_pile) as Hperm
    by (symmetry; apply reverse_Permutation).
  assert (NoDup (lower <$> first_seen (category <$> demo_pile))) as Hnd
    by (apply (bool_decide_unpack _); vm_compute; exact I).
  split; [discriminate|]. split; [exact Hperm|]. split; [exact Hnd|].
  apply (organize_pile_order demo_room demo_pile (reverse demo_pile));
    [discriminate|exact Hperm|exact Hnd].
Defined.

(** X6.  The whole arrangement does not depend on the order of the pile
    when, besides, no two books have the same case-folded title: placing and
    then sorting gives the same room for the same books in any order. *)
Theorem organize_sort_pile_order `{Runtime}
    (room : Room) (pile1 pile2 : list Book) :
  shelves room ≠ [] →
  pile1 ≡ₚ pile2 →
  NoDup (lower <$> first_seen (category <$> pile1)) →
  NoDup ((λ b, casefold (title b)) <$> pile1) →
  ∃ room1 room2,
    organize_books_by_category room pile1 = ok room1
    ∧ organize_books_by_category room pile2 = ok room2
    ∧ sort_books_on_all_shelves room1 = sort_books_on_all_shelves room2.
Proof.
  intros Hne Hperm Hnd Htitles. do 2 eexists.
  split; [by apply organize_eq|]. split; [by apply organize_eq|].
  pose proof (category_order_pile_perm _ _ Hperm Hnd) as Horder.
  unfold sort_books_on_all_shelves. cbn [shelves owner]. f_equal.
  apply list_eq. intros j. rewrite !list_lookup_fmap.
  destruct (organized (shelves room) pile1 !! j) as [sh1|] eqn:Hsh1;
    destruct (organized (shelves room) pile2 !! j) as [sh2|] eqn:Hsh2;
    [|apply lookup_lt_Some in Hsh1; apply lookup_ge_None in Hsh2;
      rewrite organized_length in *; lia
     |apply lookup_lt_Some in Hsh2; apply lookup_ge_None in Hsh1;
      rewrite organized_length in *; lia
     |done].
  cbn [fmap option_fmap option_map]. f_equal.
  assert (NoDup (title_key <$> books sh2)) as Hnd2.
  { assert (books sh2
            `sublist_of` mjoin (books <$> organized (shelves room) pile2))
      as Hsub.
    { apply elem_of_sublist_join, list_elem_of_fmap. exists sh2.
      split; [done|]. by eapply list_elem_of_lookup_2. }
    eapply sublist_NoDup; [|apply fmap_sublist, Hsub].
    rewrite organized_perm by done. rewrite <-Hperm. exact Htitles. }
  apply organized_lookup in Hsh1 as (sh & Hsh & Hn1 & Hb1).
  apply organized_lookup in Hsh2 as (sh' & Hsh' & Hn2 & Hb2).
  unfold sort_books_by_title. f_equal; [congruence|].
  apply sorted_perm_unique; [|done].
  rewrite Hb1, Hb2, Horder.
  apply join_fmap_perm. intros c. unfold group_of. by rewrite Hperm.
Qed.

Lemma organize_sort_pile_order_witness :
  shelves demo_room ≠ []
  ∧ demo_pile ≡ₚ reverse demo_pile
  ∧ NoDup (lower <$> first_seen (category <$> demo_pile))
  ∧ NoDup ((λ b, casefold (title b)) <$> demo_pile)
  ∧ ∃ room1 room2,
      organize_books_by_category demo_room demo_pile = ok room1
      ∧ organize_books_by_category demo_room (reverse demo_pile) = ok room2
      ∧ sort_books_on_all_shelves room1 = sort_books_on_all_shelves room2.
Proof.
  assert (demo_pile ≡ₚ reverse demo_pile) as Hperm
    by (symmetry; apply reverse_Permutation).
  assert (NoDup (lower <$> first_seen (category <$> demo_pile))) as Hnd
    by (apply (bool_decide_unpack _); vm_compute; exact I).
  assert (NoDup ((λ b, casefold (title b)) <$> demo_pile)) as Htitles
    by (apply (bool_decide_unpack _); vm_compute; exact I).
  split; [discriminate|]. split; [exact Hperm|]. split; [exact Hnd|].
  split; [exact Htitles|].
  apply (organize_sort_pile_order demo_room demo_pile (reverse demo_pile));
    [discriminate|exact Hperm|exact Hnd|exact Htitles].
Defined.

(** X7.  Sorting again changes nothing: [sort_books_by_title] on a sorted
    shelf, and so [sort_books_on_all_shelves] on a sorted room, returns what
    it was given; more generally a shelf whose books already stand in
    non-descending order of case-folded title is left as it is. *)
Theorem sort_idempotent `{Runtime} (sh : Shelf) (room : Room) :
  sort_books_by_title (sort_books_by_title sh) = sort_books_by_title sh
  ∧ sort_books_on_all_shelves (sort_books_on_all_shelves room)
    = sort_books_on_all_shelves room
  ∧ (StronglySorted
       (λ b1 b2, String.ltb (casefold (title b2)) (casefold (title b1)) = false)
       (books sh) →
     sort_books_by_title sh = sh).
Proof.
  assert (∀ sh0, sort_books_by_title (sort_books_by_title sh0)
                 = sort_books_by_title sh0) as Hidem.
  { intros sh0. unfold sort_books_by_title. cbn [name books].
    by rewrite sorted_idemp. }
  split_and!.
  - apply Hidem.
  - unfold sort_books_on_all_shelves. cbn [owner shelves]. f_equal.
    rewrite <-list_fmap_compose. apply list_fmap_ext. intros i sh0 _.
    apply Hidem.
  - intros Hsorted. destruct sh as [nm bs]. unfold sort_books_by_title.
    cbn [name books] in *. f_equal. by apply (sorted_fixed title_key).
Qed.

(** X8.  The run of [demo()] on any room with a shelf and any pile: placing
    returns, and after sorting every shelf the verifier returns; the shelves
    then hold the books of the pile, none lost and none doubled, every shelf
    in non-descending order of case-folded title. *)
Theorem organize_sort_verify `{Runtime} (room : Room) (pile : list Book) :
  shelves room ≠ [] →
  ∃ room1,
    organize_books_by_category room pile = ok room1
    ∧ verify_constraint_same_category_same_shelf
        (sort_books_on_all_shelves room1) = ok tt
    ∧ mjoin (books <$> shelves (sort_books_on_all_shelves room1)) ≡ₚ pile
    ∧ Forall (λ sh, StronglySorted
                (λ b1 b2, String.ltb (casefold (title b2))
                                     (casefold (title b1)) = false)
                (books sh))
        (shelves (sort_books_on_all_shelves room1)).
Proof.
  intros Hne. eexists. split; [by apply organize_eq|].
  unfold sort_books_on_all_shelves. cbn [shelves]. split_and!.
  - apply verify_ok_iff. cbn [shelves].
    intros (c & first & second & Hconflict).
    apply (proj1 (conflict_sort _ _ _ _)) in Hconflict.
    by eapply organized_no_conflict.
  - rewrite <-(organized_perm (shelves room) pile Hne) at 2.
    apply join_perm_pointwise, Forall2_fmap, Forall2_fmap_l.
    apply Forall_Forall2_diag, Forall_forall. intros sh _.
    apply (sorted_perm title_key).
  - apply Forall_fmap, Forall_forall. intros sh _.
    apply (sorted_ordered title_key).
Qed.

Lemma organize_sort_verify_witness :
  shelves demo_room ≠ []
  ∧ ∃ room1,
      organize_books_by_category demo_room demo_pile = ok room1
      ∧ verify_constraint_same_category_same_shelf
          (sort_books_on_all_shelves room1) = ok tt
      ∧ mjoin (books <$> shelves (sort_books_on_all_shelves room1))
        ≡ₚ demo_pile
      ∧ Forall (λ sh, StronglySorted
                  (λ b1 b2, String.ltb (casefold (title b2))
                                       (casefold (title b1)) = false)
                  (books sh))
          (shelves (sort_books_on_all_shelves room1)).
Proof.
  split; [discriminate|].
  apply (organize_sort_verify demo_room demo_pile). discriminate.
Defined.

(** ** Where the verifier stops *)

Section verify_order.
Context `{Runtime}.
Implicit Types (room : Room) (sh : Shelf) (shs : list Shelf)
  (seen : gmap string string) (c first second : string).

(** Once the loop has raised, what comes after does not matter. *)
Lemma verify_shelves_app_raise shs more seen e :
  verify_shelves shs seen = raise e →
  verify_shelves (shs ++ more) seen = raise e.
Proof.
  revert seen. induction shs as [|sh shs IH]; intros seen; [done|].
  cbn [verify_shelves app].
  destruct (verify_shelf _ _ seen) as [e'|seen']; cbn [bind]; [done|].
  apply IH.
Qed.

(** The loop raises at some shelf, having passed all the shelves before. *)
Lemma verify_shelves_first shs seen e :
  verify_shelves shs seen = raise e →
  ∃ j sj, shs !! j = Some sj
    ∧ verify_shelves (take j shs) seen = ok tt
    ∧ verify_shelves (take (S j) shs) seen = raise e.
Proof.
  revert seen. induction shs as [|sh shs IH]; intros seen; [done|].
  cbn [verify_shelves].
  destruct (verify_shelf _ _ seen) as [e'|seen'] eqn:Hsh; cbn [bind].
  - intros [= ->]. exists 0, sh. split_and!; [done..|].
    cbn [take verify_shelves]. by rewrite Hsh.
  - intros (j & sj & Hj & Hbefore & Hat)%IH.
    exists (S j), sj. split_and!; [done|..].
    + cbn [take verify_shelves]. by rewrite Hsh.
    + change (take (S (S j)) (sh :: shs)) with (sh :: take (S j) shs).
      cbn [verify_shelves]. by rewrite Hsh.
Qed.

(** A conflict among the first shelves is a conflict of the room. *)
Lemma conflict_take k shs c first second :
  conflict (take k shs) c first second
  ↔ ∃ i j si sj,
      i < j ∧ j < k ∧ shs !! i = Some si ∧ shs !! j = Some sj
      ∧ c ∈ categories si ∧ c ∈ categories sj
      ∧ name si = first ∧ name sj = second ∧ first ≠ second.
Proof.
  split.
  - intros (i & j & si & sj & Hlt & Hi & Hj & Hci & Hcj & Hni & Hnj & Hne).
    apply lookup_take_Some in Hi as [Hi _].
    apply lookup_take_Some in Hj as [Hj Hjk].
    exists i, j, si, sj. by split_and!.
  - intros (i & j & si & sj & Hlt & Hjk & Hi & Hj & Hci & Hcj & Hni & Hnj & Hne).
    exists i, j, si, sj. split; [done|].
    rewrite !lookup_take_Some. split_and!; [done|lia|done..].
Qed.

Lemma verify_first room e :
  verify_constraint_same_category_same_shelf room = raise e →
  ∃ j sj c first,
    shelves room !! j = Some sj
    ∧ e = AssertionError (found_on c first (name sj))
    ∧ c ∈ categories sj ∧ first ≠ name sj
    ∧ (∃ i si, i < j ∧ shelves room !! i = Some si ∧ c ∈ categories si
         ∧ name si = first)
    ∧ verify_constraint_same_category_same_shelf
        {| owner := owner room; shelves := take j (shelves room) |} = ok tt.
Proof.
  unfold verify_constraint_same_category_same_shelf at 1.
  intros (j & sj & Hj & Hbefore & Hat)%verify_shelves_first.
  apply (verify_raise {| owner := owner room;
                         shelves := take (S j) (shelves room) |})
    in Hat as (c & first & second & -> & Hconflict).
  cbn [shelves] in Hconflict.
  apply conflict_take in Hconflict
    as (i & j' & si & sj' & Hlt & Hj' & Hi & Hsj' & Hci & Hcj & Hni & Hnj & Hne).
  assert (verify_constraint_same_category_same_shelf
            {| owner := owner room; shelves := take j (shelves room) |}
          = ok tt) as Hok by done.
  assert (j' = j) as ->.
  { destruct (decide (j' = j)) as [|Hjj]; [done|]. exfalso.
    apply verify_ok_iff in Hok. apply Hok. exists c, first, second.
    cbn [shelves]. apply conflict_take.
    exists i, j', si, sj'. split_and!; [done|lia|done..]. }
  assert (sj' = sj) as -> by congruence.
  exists j, sj, c, first. subst second.
  split_and!; [done..| |done]. by exists i, si.
Qed.
End verify_order.

(** X9.  The verifier stops at the first shelf that is at odds with a shelf
    before it: when it raises, the message names a category of that shelf,
    the name of an earlier shelf that holds the category too, and, last, the
    name of that shelf; the shelves before it, taken as a room, pass. *)
Theorem verify_first_offender `{Runtime} (room : Room) (e : exn) :
  verify_constraint_same_category_same_shelf room = raise e →
  ∃ j sj c first,
    shelves room !! j = Some sj
    ∧ e = AssertionError (found_on c first (name sj))
    ∧ c ∈ categories sj ∧ first ≠ name sj
    ∧ (∃ i si, i < j ∧ shelves room !! i = Some si ∧ c ∈ categories si
         ∧ name si = first)
    ∧ verify_constraint_same_category_same_shelf
        {| owner := owner room; shelves := take j (shelves room) |} = ok tt.
Proof. apply verify_first. Qed.

Lemma verify_first_offender_witness :
  verify_constraint_same_category_same_shelf
    (mkRoom "Bob"
       [mkShelf "A" [mkBook "b1" "Emma" "Jane Austen" "Novel" None];
        mkShelf "B" [mkBook "b2" "Ulysses" "James Joyce" "Novel" None];
        mkShelf "C" [mkBook "b3" "Dubliners" "James Joyce" "Novel" None]])
  = raise (AssertionError "Category 'Novel' was found on shelves 'A' and 'B'")
  ∧ ∃ j sj c first,
      shelves
        (mkRoom "Bob"
           [mkShelf "A" [mkBook "b1" "Emma" "Jane Austen" "Novel" None];
            mkShelf "B" [mkBook "b2" "Ulysses" "James Joyce" "Novel" None];
            mkShelf "C" [mkBook "b3" "Dubliners" "James Joyce" "Novel" None]])
        !! j = Some sj
      ∧ AssertionError "Category 'Novel' was found on shelves 'A' and 'B'"
        = AssertionError (found_on c first (name sj))
      ∧ c ∈ categories sj ∧ first ≠ name sj
      ∧ (∃ i si, i < j
           ∧ shelves
               (mkRoom "Bob"
                  [mkShelf "A" [mkBook "b1" "Emma" "Jane Austen" "Novel" None];
                   mkShelf "B"
                     [mkBook "b2" "Ulysses" "James Joyce" "Novel" None];
                   mkShelf "C"
                     [mkBook "b3" "Dubliners" "James Joyce" "Novel" None]])
               !! i = Some si
           ∧ c ∈ categories si ∧ name si = first)
      ∧ verify_constraint_same_category_same_shelf
          {| owner := owner
               (mkRoom "Bob"
                  [mkShelf "A" [mkBook "b1" "Emma" "Jane Austen" "Novel" None];
                   mkShelf "B"
                     [mkBook "b2" "Ulysses" "James Joyce" "Novel" None];
                   mkShelf "C"
                     [mkBook "b3" "Dubliners" "James Joyce" "Novel" None]]);
             shelves := take j
               (shelves
                  (mkRoom "Bob"
                     [mkShelf "A"
                        [mkBook "b1" "Emma" "Jane Austen" "Novel" None];
                      mkShelf "B"
                        [mkBook "b2" "Ulysses" "James Joyce" "Novel" None];
                      mkShelf "C"
                        [mkBook "b3" "Dubliners" "James Joyce" "Novel"
                           None]])) |}
        = ok tt.
Proof.
  split; [reflexivity|].
  apply (verify_first_offender
           (mkRoom "Bob"
              [mkShelf "A" [mkBook "b1" "Emma" "Jane Austen" "Novel" None];
               mkShelf "B" [mkBook "b2" "Ulysses" "James Joyce" "Novel" None];
               mkShelf "C" [mkBook "b3" "Dubliners" "James Joyce" "Novel"
                              None]])).
  reflexivity.
Defined.

(** X10.  A shelf added with [add_shelf] is the last the verifier looks at:
    if the verifier raised on the room, it raises the same on the room with
    the new shelf; if it accepted the room, it accepts the room with the new
    shelf exactly when every shelf that shares a category with the new one
    has its name.  An empty shelf can always be added. *)
Theorem verify_add_shelf `{Runtime} (room : Room) (sh : Shelf) :
  (∀ e, verify_constraint_same_category_same_shelf room = raise e →
        verify_constraint_same_category_same_shelf (add_shelf room sh)
        = raise e)
  ∧ (verify_constraint_same_category_same_shelf room = ok tt →
     (verify_constraint_same_category_same_shelf (add_shelf room sh) = ok tt
      ↔ ∀ i si c, shelves room !! i = Some si →
          c ∈ categories si → c ∈ categories sh → name si = name sh))
  ∧ (verify_constraint_same_category_same_shelf room = ok tt →
     books sh = [] →
     verify_constraint_same_category_same_shelf (add_shelf room sh) = ok tt).
Proof.
  assert (verify_constraint_same_category_same_shelf room = ok tt →
     (verify_constraint_same_category_same_shelf (add_shelf room sh) = ok tt
      ↔ ∀ i si c, shelves room !! i = Some si →
          c ∈ categories si → c ∈ categories sh → name si = name sh))
    as Hext.
  { intros Hok. rewrite verify_ok_iff. cbn [add_shelf shelves]. split.
    - intros Hnone i si c Hi Hci Hc.
      destruct (decide (name si = name sh)) as [|Hne]; [done|].
      exfalso. apply Hnone.
      exists c, (name si), (name sh), i, (length (shelves room)), si, sh.
      split_and!; [by eapply lookup_lt_Some| |by apply list_lookup_middle
                  |done..].
      apply lookup_app_l_Some, Hi.
    - intros Hsame (c & first & second & i & j & si & sj
                    & Hlt & Hi & Hj & Hci & Hcj & <- & <- & Hne).
      apply lookup_snoc_Some in Hj as [[Hjlt Hj]|[-> <-]].
      + apply Hne. apply (verify_ok_same_name room i j si sj c); [done| |done..].
        apply lookup_snoc_Some in Hi as [[_ Hi]|[-> _]]; [done|lia].
      + apply Hne, (Hsame i si c); [|done..].
        apply lookup_snoc_Some in Hi as [[_ Hi]|[-> _]]; [done|lia]. }
  split_and!; [|done|].
  - intros e. unfold verify_constraint_same_category_same_shelf.
    cbn [add_shelf shelves]. apply verify_shelves_app_raise.
  - intros Hok Hempty. apply Hext; [done|].
    intros i si c _ _. unfold categories. rewrite Hempty.
    by intros ?%not_elem_of_empty.
Qed.

(** X11.  The order in which a set is iterated, which changes from one run
    of the interpreter to the next, does not change the verdict of the
    verifier; when it raises, the shelf it stops at, whose name ends the
    message, is the same as well (the category named may differ when that
    shelf is at odds in several). *)
Theorem verify_any_set_order (R1 R2 : Runtime) (room : Room) :
  (@verify_constraint_same_category_same_shelf R1 room = ok tt
   ↔ @verify_constraint_same_category_same_shelf R2 room = ok tt)
  ∧ ∀ e1 e2,
      @verify_constraint_same_category_same_shelf R1 room = raise e1 →
      @verify_constraint_same_category_same_shelf R2 room = raise e2 →
      ∃ j sj c1 first1 c2 first2,
        shelves room !! j = Some sj
        ∧ e1 = AssertionError (found_on c1 first1 (name sj))
        ∧ e2 = AssertionError (found_on c2 first2 (name sj)).
Proof.
  split; [by rewrite !verify_ok_iff|].
  intros e1 e2
    (j1 & s1 & c1 & f1 & Hs1 & -> & Hc1 & Hne1 & (i1 & t1 & Hlt1 & Ht1 & Hd1 & Hn1)
     & Hok1)%verify_first
    (j2 & s2 & c2 & f2 & Hs2 & -> & Hc2 & Hne2 & (i2 & t2 & Hlt2 & Ht2 & Hd2 & Hn2)
     & Hok2)%verify_first.
  apply verify_ok_iff in Hok1, Hok2. cbn [shelves] in Hok1, Hok2.
  assert (j1 = j2) as ->.
  { destruct (Nat.lt_total j1 j2) as [Hlt | [-> | Hlt] ]; [|done|]; exfalso.
    - apply Hok2. exists c1, f1, (name s1). apply conflict_take.
      exists i1, j1, t1, s1. by split_and!.
    - apply Hok1. exists c2, f2, (name s2). apply conflict_take.
      exists i2, j2, t2, s2. by split_and!. }
  assert (s1 = s2) as -> by congruence.
  exists j2, s2, c1, f1, c2, f2. by split_and!.
Qed.

(** ** The rows of the data frame *)

Section rows.
Implicit Types (room : Room) (sh : Shelf) (shs : list Shelf) (r : Row)
  (nm : string).

Lemma book_of_row_shelf_rows sh : book_of_row <$> shelf_rows sh = books sh.
Proof.
  unfold shelf_rows. rewrite <-list_fmap_compose.
  rewrite <-(list_fmap_id (books sh)) at 2. apply list_fmap_ext.
  by intros i [] _.
Qed.

Lemma book_of_row_to_dataframe room :
  book_of_row <$> to_dataframe room = mjoin (books <$> shelves room).
Proof.
  unfold to_dataframe. induction (shelves room) as [|sh shs IH]; [done|].
  rewrite !fmap_cons.
  change (mjoin (?x :: ?xs)) with (x ++ mjoin xs).
  by rewrite fmap_app, IH, book_of_row_shelf_rows.
Qed.

Lemma elem_of_to_dataframe room r :
  r ∈ to_dataframe room
  ↔ ∃ j sh b, shelves room !! j = Some sh ∧ b ∈ books sh
      ∧ book_of_row r = b ∧ shelf_name r = name sh.
Proof.
  unfold to_dataframe. rewrite list_elem_of_join. split.
  - intros (rs & Hr & (sh & -> & Hsh)%list_elem_of_fmap).
    apply list_elem_of_lookup_1 in Hsh as [j Hj].
    apply list_elem_of_fmap in Hr as (b & -> & Hb).
    exists j, sh, b. split_and!; [done..| |done]. by destruct b.
  - intros (j & sh & b & Hj & Hb & <- & Hname).
    exists (shelf_rows sh). split.
    + apply list_elem_of_fmap. exists (book_of_row r). split; [|done].
      destruct r. cbn in *. by rewrite Hname.
    + apply list_elem_of_fmap. exists sh. split; [done|].
      by eapply list_elem_of_lookup_2.
Qed.

Lemma filter_shelf_rows nm sh :
  filter (λ r, shelf_name r = nm) (shelf_rows sh)
  = if decide (name sh = nm) then shelf_rows sh else [].
Proof.
  unfold shelf_rows. induction (books sh) as [|b bs IH]; [by destruct (decide _)|].
  rewrite fmap_cons, filter_cons, IH. cbn [shelf_name].
  by destruct (decide (name sh = nm)).
Qed.

Lemma filter_rows_other nm shs :
  nm ∉ name <$> shs →
  filter (λ r, shelf_name r = nm) (mjoin (shelf_rows <$> shs)) = [].
Proof.
  induction shs as [|sh shs IH]; [done|].
  rewrite !fmap_cons, not_elem_of_cons. intros [Hne Hnin].
  change (mjoin (?x :: ?xs)) with (x ++ mjoin xs).
  rewrite filter_app, filter_shelf_rows, (IH Hnin).
  by rewrite decide_False by done.
Qed.
End rows.

(** X12.  The data frame after a placement run: its rows, read back as
    books, are the books of the pile, none lost and none doubled; all the
    rows of one category bear the same shelf name (a column of the pivot of
    [demo()] has one cell that is not zero); and every shelf name in it is
    the name of a shelf of the room. *)
Theorem organize_to_dataframe `{Runtime} (room : Room) (pile : list Book) :
  shelves room ≠ [] →
  ∃ room',
    organize_books_by_category room pile = ok room'
    ∧ book_of_row <$> to_dataframe room' ≡ₚ pile
    ∧ (∀ r1 r2, r1 ∈ to_dataframe room' → r2 ∈ to_dataframe room' →
         row_category r1 = row_category r2 → shelf_name r1 = shelf_name r2)
    ∧ (∀ r, r ∈ to_dataframe room' → shelf_name r ∈ name <$> shelves room).
Proof.
  intros Hne. eexists. split; [by apply organize_eq|]. split_and!.
  - rewrite book_of_row_to_dataframe. cbn [shelves]. by apply organized_perm.
  - intros r1 r2 (j1 & sh1 & b1 & Hj1 & Hb1 & <- & ->)%elem_of_to_dataframe
                 (j2 & sh2 & b2 & Hj2 & Hb2 & <- & ->)%elem_of_to_dataframe Hcat.
    cbn [shelves] in Hj1, Hj2.
    apply (organized_books_elem _ _ _ _ _ Hj1) in Hb1 as (_ & p & Hp & Hpj).
    apply (organized_books_elem _ _ _ _ _ Hj2) in Hb2 as (_ & q & Hq & Hqj).
    change (category (book_of_row r1)) with (row_category r1) in Hp.
    change (category (book_of_row r2)) with (row_category r2) in Hq.
    rewrite Hcat in Hp.
    rewrite (category_order_position pile p q _ Hp Hq) in Hpj.
    congruence.
  - intros r (j & sh & b & Hj & _ & _ & ->)%elem_of_to_dataframe.
    cbn [shelves] in Hj. rewrite <-(organized_names (shelves room) pile).
    apply list_elem_of_fmap. exists sh. split; [done|].
    by eapply list_elem_of_lookup_2.
Qed.

Lemma organize_to_dataframe_witness :
  shelves demo_room ≠ []
  ∧ ∃ room',
      organize_books_by_category demo_room demo_pile = ok room'
      ∧ book_of_row <$> to_dataframe room' ≡ₚ demo_pile
      ∧ (∀ r1 r2, r1 ∈ to_dataframe room' → r2 ∈ to_dataframe room' →
           row_category r1 = row_category r2 → shelf_name r1 = shelf_name r2)
      ∧ (∀ r, r ∈ to_dataframe room' →
           shelf_name r ∈ name <$> shelves demo_room).
Proof.
  split; [discriminate|].
  apply (organize_to_dataframe demo_room demo_pile). discriminate.
Defined.

(** X13.  The data frame can be read back.  In every room its rows, as
    books, are the books of the shelves in the order of the room and of each
    shelf; and when no two shelves have the same name, the rows that bear the
    name of a shelf are the books of that shelf, in their order. *)
Theorem to_dataframe_read_back (room : Room) :
  book_of_row <$> to_dataframe room = mjoin (books <$> shelves room)
  ∧ (NoDup (name <$> shelves room) →
     ∀ sh, sh ∈ shelves room →
       book_of_row <$> filter (λ r, shelf_name r = name sh) (to_dataframe room)
       = books sh).
Proof.
  split; [apply book_of_row_to_dataframe|]. intros Hnd.
  unfold to_dataframe. induction (shelves room) as [|sh0 shs IH]; intros sh Hsh.
  { by apply elem_of_nil in Hsh. }
  rewrite fmap_cons in Hnd. apply NoDup_cons in Hnd as [Hfresh Hnd].
  rewrite fmap_cons. change (mjoin (?x :: ?xs)) with (x ++ mjoin xs).
  rewrite filter_app, filter_shelf_rows, fmap_app.
  apply elem_of_cons in Hsh as [->|Hsh].
  - rewrite decide_True by done.
    rewrite (filter_rows_other _ _ Hfresh), app_nil_r.
    apply book_of_row_shelf_rows.
  - rewrite decide_False.
    + by apply IH.
    + intros Hname. apply Hfresh. rewrite Hname.
      apply list_elem_of_fmap. by exists sh.
Qed.

Lemma to_dataframe_read_back_witness :
  NoDup (name <$> shelves
           (mkRoom "Bob" [mkShelf "Left" (take 3 demo_pile);
                          mkShelf "Right" (drop 3 demo_pile)]))
  ∧ book_of_row
      <$> to_dataframe
            (mkRoom "Bob" [mkShelf "Left" (take 3 demo_pile);
                           mkShelf "Right" (drop 3 demo_pile)])
    = mjoin (books <$> shelves
               (mkRoom "Bob" [mkShelf "Left" (take 3 demo_pile);
                              mkShelf "Right" (drop 3 demo_pile)]))
  ∧ ∀ sh, sh ∈ shelves
                 (mkRoom "Bob" [mkShelf "Left" (take 3 demo_pile);
                                mkShelf "Right" (drop 3 demo_pile)]) →
      book_of_row
        <$> filter (λ r, shelf_name r = name sh)
              (to_dataframe
                 (mkRoom "Bob" [mkShelf "Left" (take 3 demo_pile);
                                mkShelf "Right" (drop 3 demo_pile)]))
      = books sh.
Proof.
  assert (NoDup (name <$> shelves
                   (mkRoom "Bob" [mkShelf "Left" (take 3 demo_pile);
                                  mkShelf "Right" (drop 3 demo_pile)])))
    as Hnd by (apply (bool_decide_unpack _); vm_compute; exact I).
  split; [exact Hnd|].
  split.
  - exact (proj1 (to_dataframe_read_back _)).
  - exact (proj2 (to_dataframe_read_back _) Hnd).
Defined.

(** ** The text of a shelf *)

Section text.
Implicit Types (sh : Shelf) (l : list string) (c x : string).

Lemma str_join_comma_empty l : str_join ", " l = "" ↔ l = [] ∨ l = [""].
Proof.
  split; [|by intros [-> | ->] ].
  destruct l as [|x [|y l] ]; cbn [str_join];
    [by left|intros ->; by right|].
  by destruct x.
Qed.

Lemma str_join_comma_dash l : str_join ", " l = "-" ↔ l = ["-"].
Proof.
  split; [|by intros ->].
  destruct l as [|x [|y l] ]; cbn [str_join]; [done|by intros ->|].
  destruct x as [|a [|a' x] ]; done.
Qed.

(** A list without repetition whose elements are all [x]. *)
Lemma NoDup_all_equal l x :
  NoDup l → (∀ c, c ∈ l → c = x) → l = [] ∨ l = [x].
Proof.
  intros Hnd Hall. destruct l as [|c [|c' l] ]; [by left| |].
  - right. f_equal. apply Hall. left.
  - exfalso. apply NoDup_cons in Hnd as [Hc _]. apply Hc.
    rewrite (Hall c), (Hall c'); [left|right; left|left].
Qed.

Lemma sorted_categories_elem `{Runtime} sh c :
  c ∈ sorted_categories sh ↔ c ∈ categories sh.
Proof.
  unfold sorted_categories. by rewrite sorted_elem, set_iter_categories.
Qed.

Lemma sorted_categories_NoDup `{Runtime} sh : NoDup (sorted_categories sh).
Proof. apply sorted_NoDup, set_iter_NoDup. Qed.

Lemma sorted_categories_any_set_order (R1 R2 : Runtime) sh :
  @sorted_categories R1 sh = @sorted_categories R2 sh.
Proof.
  unfold sorted_categories. apply sorted_perm_unique.
  - apply NoDup_Permutation; [apply set_iter_NoDup..|].
    intros c. by rewrite !set_iter_elem.
  - rewrite list_fmap_id. apply set_iter_NoDup.
Qed.
End text.

(** X14.  The header of a shelf's text lists the categories of the shelf
    once each, in ascending order of the strings themselves (capitals before
    small letters).  The dash that stands for "no category" shows exactly
    when no book of the shelf has a category other than the empty string, or
    when the shelf has books and their one category is the dash itself. *)
Theorem shelf_categories_text `{Runtime} (sh : Shelf) :
  (∀ c, c ∈ sorted_categories sh ↔ ∃ b, b ∈ books sh ∧ category b = c)
  ∧ NoDup (sorted_categories sh)
  ∧ StronglySorted (λ c1 c2, String.ltb c2 c1 = false) (sorted_categories sh)
  ∧ (cats sh = "-"
     ↔ (∀ b, b ∈ books sh → category b = "")
       ∨ (books sh ≠ [] ∧ ∀ b, b ∈ books sh → category b = "-"))
  ∧ (cats sh ≠ "-" → cats sh = str_join ", " (sorted_categories sh)).
Proof.
  assert (∀ c, c ∈ sorted_categories sh ↔ ∃ b, b ∈ books sh ∧ category b = c)
    as Helem.
  { intros c. by rewrite sorted_categories_elem, elem_of_categories. }
  split_and!; [done|apply sorted_categories_NoDup| |
               |unfold cats; cbn zeta; by destruct (decide _)].
  { apply (sorted_ordered (λ c, c)). }
  assert (cats sh = "-"
          ↔ sorted_categories sh = [] ∨ sorted_categories sh = [""]
            ∨ sorted_categories sh = ["-"]) as ->.
  { unfold cats. cbn zeta.
    destruct (decide (str_join ", " (sorted_categories sh) = "")) as [He|He].
    - apply str_join_comma_empty in He. split; [|done]. tauto.
    - rewrite str_join_comma_dash. rewrite str_join_comma_empty in He.
      tauto. }
  split.
  - intros [Hs | [Hs | Hs] ].
    + left. intros b Hb. assert (category b ∈ sorted_categories sh) as Hin
        by (apply Helem; by exists b).
      rewrite Hs in Hin. by apply elem_of_nil in Hin.
    + left. intros b Hb. assert (category b ∈ sorted_categories sh) as Hin
        by (apply Helem; by exists b).
      rewrite Hs in Hin. by apply list_elem_of_singleton in Hin.
    + right. split.
      * intros Hnil. assert ("-" ∈ sorted_categories sh) as Hin
          by (rewrite Hs; left).
        apply Helem in Hin as (b & Hb & _). rewrite Hnil in Hb.
        by apply elem_of_nil in Hb.
      * intros b Hb. assert (category b ∈ sorted_categories sh) as Hin
          by (apply Helem; by exists b).
        rewrite Hs in Hin. by apply list_elem_of_singleton in Hin.
  - intros [Hall | [Hne Hall] ].
    + destruct (NoDup_all_equal (sorted_categories sh) ""
                  (sorted_categories_NoDup sh)) as [Hs | Hs]; [|tauto..].
      intros c (b & Hb & <-)%Helem. by apply Hall.
    + destruct (NoDup_all_equal (sorted_categories sh) "-"
                  (sorted_categories_NoDup sh)) as [Hs | Hs]; [| |tauto].
      * intros c (b & Hb & <-)%Helem. by apply Hall.
      * exfalso. destruct (books sh) as [|b bs] eqn:Hbooks; [done|].
        assert (category b ∈ sorted_categories sh) as Hin.
        { apply Helem. exists b. split; [left|done]. }
        rewrite Hs in Hin. by apply elem_of_nil in Hin.
Qed.

(** X15.  What [str(shelf)] and [dump()] return does not depend on the order
    in which the set of categories is iterated: sorting the categories makes
    the text the same on every run of the interpreter. *)
Theorem dump_any_set_order (R1 R2 : Runtime) (sh : Shelf) (room : Room) :
  @sorted_categories R1 sh = @sorted_categories R2 sh
  ∧ @shelf_str R1 sh = @shelf_str R2 sh
  ∧ @dump R1 room = @dump R2 room.
Proof.
  assert (∀ sh0, @shelf_str R1 sh0 = @shelf_str R2 sh0) as Hstr.
  { intros sh0. unfold shelf_str, cats.
    by rewrite (sorted_categories_any_set_order R1 R2). }
  split_and!; [apply sorted_categories_any_set_order|apply Hstr|].
  unfold dump. f_equal. apply list_fmap_ext. intros i sh0 _. apply Hstr.
Qed.

(** ** What the operations leave alone *)

(** X16.  [organize_books_by_category] changes the books of the shelves and
    nothing else: the owner, the number of the shelves, their names and their
    order stay, and no book that was on a shelf before is there after unless
    the pile has it. *)
Theorem organize_keeps_shelves `{Runtime} (room : Room) (pile : list Book) :
  shelves room ≠ [] →
  ∃ room',
    organize_books_by_category room pile = ok room'
    ∧ owner room' = owner room
    ∧ name <$> shelves room' = name <$> shelves room
    ∧ ∀ sh b, sh ∈ shelves room' → b ∈ books sh → b ∈ pile.
Proof.
  intros Hne. eexists. split; [by apply organize_eq|]. cbn [owner shelves].
  split_and!; [done|apply organized_names|].
  intros sh b [j Hj]%list_elem_of_lookup_1 Hb.
  by apply (organized_books_elem _ _ _ _ _ Hj) in Hb as [Hb _].
Qed.

Lemma organize_keeps_shelves_witness :
  shelves (mkRoom "Bob" [mkShelf "Left" (take 2 demo_pile); mkShelf "Right" []])
  ≠ []
  ∧ ∃ room',
      organize_books_by_category
        (mkRoom "Bob" [mkShelf "Left" (take 2 demo_pile); mkShelf "Right" []])
        (drop 2 demo_pile)
      = ok room'
      ∧ owner room'
        = owner (mkRoom "Bob"
                   [mkShelf "Left" (take 2 demo_pile); mkShelf "Right" []])
      ∧ name <$> shelves room'
        = name <$> shelves
            (mkRoom "Bob"
               [mkShelf "Left" (take 2 demo_pile); mkShelf "Right" []])
      ∧ ∀ sh b, sh ∈ shelves room' → b ∈ books sh → b ∈ drop 2 demo_pile.
Proof.
  split; [discriminate|].
  apply (organize_keeps_shelves
           (mkRoom "Bob" [mkShelf "Left" (take 2 demo_pile); mkShelf "Right" []])
           (drop 2 demo_pile)).
  discriminate.
Defined.

(** X17.  In a room whose shelves all have different names the verifier
    checks what its docstring says: it returns exactly when no category is
    on two shelves. *)
Theorem verify_distinct_names `{Runtime} (room : Room) :
  NoDup (name <$> shelves room) →
  verify_constraint_same_category_same_shelf room = ok tt
  ↔ ∀ i j si sj c,
      shelves room !! i = Some si → shelves room !! j = Some sj →
      c ∈ categories si → c ∈ categories sj → i = j.
Proof.
  intros Hnd. rewrite verify_ok_iff. split.
  - intros Hnone i j si sj c Hi Hj Hci Hcj.
    assert (∀ i j si sj, i < j →
              shelves room !! i = Some si → shelves room !! j = Some sj →
              c ∈ categories si → c ∈ categories sj → False) as Hlt.
    { intros i' j' si' sj' Hlt Hi' Hj' Hci' Hcj'. apply Hnone.
      exists c, (name si'), (name sj'), i', j', si', sj'.
      split_and!; [done..|].
      intros Hname. assert (i' = j'); [|lia].
      apply (NoDup_lookup _ _ _ (name si') Hnd);
        rewrite list_lookup_fmap; [by rewrite Hi'|by rewrite Hj', Hname]. }
    destruct (Nat.lt_total i j) as [? | [? | ?] ]; [|done|];
      exfalso; eauto.
  - intros Hone (c & first & second & i & j & si & sj
                 & Hlt & Hi & Hj & Hci & Hcj & _).
    pose proof (Hone i j si sj c Hi Hj Hci Hcj). lia.
Qed.

Lemma verify_distinct_names_witness :
  NoDup (name <$> shelves
           (mkRoom "Bob" [mkShelf "Left" (take 2 demo_pile);
                          mkShelf "Right" (drop 2 demo_pile)]))
  ∧ (verify_constraint_same_category_same_shelf
       (mkRoom "Bob" [mkShelf "Left" (take 2 demo_pile);
                      mkShelf "Right" (drop 2 demo_pile)]) = ok tt
     ↔ ∀ i j si sj c,
         shelves (mkRoom "Bob" [mkShelf "Left" (take 2 demo_pile);
                                mkShelf "Right" (drop 2 demo_pile)])
           !! i = Some si →
         shelves (mkRoom "Bob" [mkShelf "Left" (take 2 demo_pile);
                                mkShelf "Right" (drop 2 demo_pile)])
           !! j = Some sj →
         c ∈ categories si → c ∈ categories sj → i = j).
Proof.
  assert (NoDup (name <$> shelves
                   (mkRoom "Bob" [mkShelf "Left" (take 2 demo_pile);
                                  mkShelf "Right" (drop 2 demo_pile)])))
    as Hnd by (apply (bool_decide_unpack _); vm_compute; exact I).
  split; [exact Hnd|].
  exact (verify_distinct_names _ Hnd).
Defined.
